(** * mofox-wire: the message runtime and the adapter bridge

    A shallow embedding of [mofox_wire/runtime.py] (route registry, matcher,
    dispatcher, batch entry point, middleware chain) and of
    [AdapterBase._on_outgoing_from_core] from [mofox_wire/adapter_utils.py],
    followed by the properties of the specification that concern them.

    Python values are a small universe [pyval]; dictionaries are finite maps
    with string keys.  Handlers and middlewares are state transformers over
    an arbitrary world [W] that may raise; hooks, which the runtime runs
    side by side, are tasks that act on the world step by step; route
    predicates are functions of the envelope that may raise. *)

From stdpp Require Import gmap strings list fin_maps pretty.
From Stdlib Require Import ZArith.

Set Warnings "-register-all".
Local Open Scope string_scope.
Local Open Scope list_scope.

(** ** Python values *)

Inductive pyval :=
| PNone
| PBool (b : bool)
| PInt (z : Z)
| PStr (s : string)
| PList (l : list pyval)
| PTuple (l : list pyval)
| PDict (d : gmap string pyval).

(** [MessageEnvelope] is a dictionary. *)
Abbreviation envelope := (gmap string pyval).

(** Truth value testing, as done by [if v], [v or w] and [not v]. *)
Definition truthy (v : pyval) : bool :=
  match v with
  | PNone => false
  | PBool b => b
  | PInt z => negb (Z.eqb z 0)
  | PStr s => negb (String.eqb s EmptyString)
  | PList l | PTuple l => match l with [] => false | _ :: _ => true end
  | PDict d => negb (bool_decide (d = ∅))
  end.

(** The part of [v] that [hash(v)] fails on: lists and dictionaries are
    unhashable, and the hash of a tuple hashes its elements from left to
    right, so that it fails on the first part of an element that is a list
    or a dictionary. *)
Fixpoint unhashable_part (v : pyval) : option pyval :=
  match v with
  | PList _ | PDict _ => Some v
  | PTuple l =>
      foldr (λ x later, match unhashable_part x with
                        | Some u => Some u
                        | None => later
                        end) None l
  | _ => None
  end.

(** [type(v).__name__] *)
Definition type_name (v : pyval) : string :=
  match v with
  | PNone => "NoneType"
  | PBool _ => "bool"
  | PInt _ => "int"
  | PStr _ => "str"
  | PList _ => "list"
  | PTuple _ => "tuple"
  | PDict _ => "dict"
  end.

(** The values that are neither [None], nor a [str], nor a [list]. *)
Inductive other_value :=
| OBool (b : bool)
| OInt (z : Z)
| OTuple (l : list pyval)
| ODict (d : gmap string pyval).

Definition other_to_pyval (o : other_value) : pyval :=
  match o with
  | OBool b => PBool b
  | OInt z => PInt z
  | OTuple l => PTuple l
  | ODict d => PDict d
  end.

(** [str(type(v))], as an f-string prints it. *)
Definition type_repr (v : pyval) : string :=
  "<class '" +:+ type_name v +:+ "'>".

Definition is_none (v : pyval) : bool :=
  match v with PNone => true | _ => false end.

(** [d.get(k, dflt)] on a dictionary. *)
Definition dict_get (d : envelope) (k : string) (dflt : pyval) : pyval :=
  default dflt (d !! k).

(** [a or b] on values already computed. *)
Definition py_or (a b : pyval) : pyval := if truthy a then a else b.

(** ** Exceptions and outcomes *)

Inductive exn :=
| TypeError (msg : string)
| ValueError (msg : string)
| AttributeError (msg : string)
| NotImplementedError
| UserException (msg : string)
    (* any other instance of [Exception] raised by user code *)
| BaseOnly (msg : string)
    (* an instance of [BaseException] that is not an [Exception]:
       [asyncio.CancelledError], [KeyboardInterrupt], [SystemExit] *)
| MessageProcessingError (message_envelope : envelope) (original : exn)
    (text : string) (cause : option exn).
    (* [cause] is [__cause__], set by [raise ... from ...] *)

(** [isinstance(e, Exception)], the test of [except Exception]. *)
Definition is_Exception (e : exn) : bool :=
  match e with BaseOnly _ => false | _ => true end.

(** [str(e)]: the single argument the exception was built with. *)
Definition exn_str (e : exn) : string :=
  match e with
  | TypeError m | ValueError m | AttributeError m
  | UserException m | BaseOnly m => m
  | NotImplementedError => EmptyString
  | MessageProcessingError _ _ text _ => text
  end.

Inductive outcome (A : Type) :=
| Ok (a : A)
| Raise (e : exn).
Arguments Ok {A} a.
Arguments Raise {A} e.

#[global] Instance outcome_ret : MRet outcome := λ A a, Ok a.
#[global] Instance outcome_bind : MBind outcome := λ A B f o,
  match o with Ok a => f a | Raise e => Raise e end.

(** [v.get(k, dflt)] on an arbitrary value: a method call, which fails with
    [AttributeError] on anything that is not a dictionary. *)
Definition py_get (v : pyval) (k : string) (dflt : pyval) : outcome pyval :=
  match v with
  | PDict d => Ok (dict_get d k dflt)
  | _ => Raise (AttributeError
           ("'" +:+ type_name v +:+ "' object has no attribute 'get'"))
  end.

(** [a or <b>] where evaluating [b] may raise: [b] is evaluated only when
    [a] is falsy. *)
Definition py_or_lazy (a : pyval) (b : outcome pyval) : outcome pyval :=
  if truthy a then Ok a else b.

(** The error of [hash(v)], which names the type of the part it failed
    on. *)
Definition unhashable_error (part : pyval) : exn :=
  TypeError ("unhashable type: '" +:+ type_name part +:+ "'").

(** [v in d] for a dictionary [d] with string keys: hashing [v] comes
    first; a hashable value that is not a string equals no key. *)
Definition py_in_keys {X} (v : pyval) (d : gmap string X) : outcome bool :=
  match v with
  | PStr s => Ok (bool_decide (is_Some (d !! s)))
  | _ => match unhashable_part v with
         | None => Ok false
         | Some part => Raise (unhashable_error part)
         end
  end.

(** A [set] of strings is kept as the list of its elements in iteration
    order; [v in s] hashes [v] first. *)
Definition py_in_set (v : pyval) (s : list string) : outcome bool :=
  match v with
  | PStr x => Ok (bool_decide (x ∈ s))
  | _ => match unhashable_part v with
         | None => Ok false
         | Some part => Raise (unhashable_error part)
         end
  end.

(** [v in (None, p)] for a string [p]. *)
Definition in_none_or (p : string) (v : pyval) : bool :=
  match v with
  | PNone => true
  | PStr s => bool_decide (s = p)
  | _ => false
  end.

(** [v != p] for a string [p]. *)
Definition py_ne_str (v : pyval) (p : string) : bool :=
  match v with
  | PStr s => negb (bool_decide (s = p))
  | _ => true
  end.

(** ** Segment type extraction ([_extract_segment_type]) *)

Definition _extract_segment_type (message : envelope) : pyval :=
  let seg := py_or (dict_get message "message_segment" PNone)
                   (dict_get message "message_chain" PNone) in
  match seg with
  | PDict d => dict_get d "type" PNone
  | PList (first :: _) =>
      match first with
      | PDict d => dict_get d "type" PNone
      | _ => PNone
      end
  | _ => PNone
  end.

(** The extraction as the specification words it: [message_segment] when
    the key is present, otherwise the first element of [message_chain];
    the [type] field of the chosen mapping, absent when there is none. *)
Definition spec_extract_segment_type (E : envelope) : pyval :=
  let chosen :=
    match E !! "message_segment" with
    | Some seg => Some seg
    | None =>
        match E !! "message_chain" with
        | Some (PList (first :: _)) => Some first
        | _ => None
        end
    end in
  match chosen with
  | Some (PDict d) => dict_get d "type" PNone
  | _ => PNone
  end.

(** What the code reads from one candidate value: the [type] field of a
    mapping, or of the first element of a non-empty list when that element
    is a mapping. *)
Definition segment_type_of (seg : pyval) : pyval :=
  match seg with
  | PDict d => dict_get d "type" PNone
  | PList (PDict d :: _) => dict_get d "type" PNone
  | _ => PNone
  end.

(** For the concrete runs at the end: the world is a trace of labels, a
    set is iterated in the order of first occurrence, [repr] is left
    opaque, and the event loop resumes the tasks of a phase by turns, two
    rounds over the first three of them, before it waits for the rest. *)
#[local] Abbreviation log := (λ (label : string) (w : list string), w ++ [label]).
#[local] Abbreviation order := (@remove_dups string _).
#[local] Abbreviation repr := (λ _ : pyval, "...").
#[local] Abbreviation by_turns := (λ _ : list string, [0; 1; 2; 0; 1; 2]%nat).

(** ** The runtime *)

Section runtime.

(** The world user callables act on. *)
Context {W : Type}.

(** [set(xs)]: the elements of [xs] without repetition, in the iteration
    order of the resulting set, which Python leaves unspecified. *)
Variable set_of_list : list string → list string.
Hypothesis set_of_list_perm : ∀ l, set_of_list l ≡ₚ remove_dups l.

(** [repr] of the values an f-string does not print verbatim. *)
Variable py_repr : pyval → string.

(** The order in which the event loop resumes the tasks of an
    [asyncio.gather] that starts in the world [w], each task named by its
    position in the list.  The world stands for all that the runtime does
    not own, the time and the timing of the loop and of the worker threads
    included, which is why the order is a function of it.  Which order it
    is is left open: what is proved holds for every order. *)
Variable interleaving : W → list nat.

Set Default Proof Using "Type".

(** [str(v)], as f-string interpolation applies it. *)
Definition py_str (v : pyval) : string :=
  match v with
  | PNone => "None"
  | PBool true => "True"
  | PBool false => "False"
  | PInt z => pretty z
  | PStr s => s
  | _ => py_repr v
  end.

(** Computations of user code and of the runtime: they read and update the
    world and end with a value or an exception. *)
Definition M (A : Type) : Type := W → outcome A * W.

Definition ret {A} (a : A) : M A := λ w, (Ok a, w).
Definition raise {A} (e : exn) : M A := λ w, (Raise e, w).
Definition bind {A B} (c : M A) (k : A → M B) : M B := λ w,
  match c w with
  | (Ok a, w1) => k a w1
  | (Raise e, w1) => (Raise e, w1)
  end.
Definition lift {A} (o : outcome A) : M A := λ w, (o, w).

Notation "x ⇐ c ; k" := (bind c (λ x, k))
  (at level 20, c at level 100, k at level 200, right associativity,
   format "'[v' x  ⇐  c ; '/' k ']'").

(** A task of the event loop, as the loop and the other tasks see it: it
    has ended, with a value or an exception, or it is waiting to be
    resumed; resumed in a world [w] it changes the world to [effect w]
    without interruption and goes on as [next w].  The steps of a
    coroutine are the stretches between two points where it is suspended;
    those of a plain function run in a worker thread are what the other
    tasks can see of it. *)
Inductive task (A : Type) : Type :=
| Finished (o : outcome A)
| Running (effect : W → W) (next : W → task A).
Arguments Finished {A} o.
Arguments Running {A} effect next.

(** The task of a computation that is never suspended. *)
Definition atomic {A} (c : M A) : task A :=
  Running (λ w, snd (c w)) (λ w, Finished (fst (c w))).

(** The callables the runtime is given.  [_invoke_callable(f, args)] calls
    [f] and awaits what it returns when that is awaitable, in a worker
    thread or inline.  For a handler, a middleware or a batch handler,
    which the runtime awaits with nothing of its own running beside, it is
    function application.  A hook is run beside the other hooks of its
    phase, and is given by the task [_invoke_callable] makes of it.  A
    predicate is taken to answer from the envelope alone; like every
    callable it may raise. *)
Definition Hook : Type := envelope → task unit.
Definition ErrorHook : Type := envelope → exn → task unit.
Definition Predicate : Type := envelope → outcome pyval.
Definition BatchHandler : Type := list envelope → M pyval.
Definition MiddlewareCallable : Type := envelope → M pyval.
Definition Middleware : Type := envelope → MiddlewareCallable → M pyval.

(** A handler is a callable object: what calling it does, the name
    [getattr(handler, "__name__", str(handler))] displays, and whether
    [_looks_like_method] takes it for an instance method. *)
Record MessageHandler := {
  handler_call : envelope → M pyval;
  handler_display : string;
  looks_like_method : bool;
}.

(** [route_id] is [id(route)], the identity of the route object. *)
Record MessageRoute := {
  route_id : nat;
  predicate : Predicate;
  handler : MessageHandler;
  name : option string;
  message_type : option string;
  message_types : option (list string);
  event_types : option (list string);
}.

Record MessageRuntime := {
  _routes : list MessageRoute;
  _before_hooks : list Hook;
  _after_hooks : list Hook;
  _error_hooks : list ErrorHook;
  _batch_handler : option BatchHandler;
  _middlewares : list Middleware;
  _type_routes : gmap string (list MessageRoute);
  _event_routes : gmap string (list MessageRoute);
  _explicit_type_handlers : gmap string string;
}.

(** [MessageRuntime()] *)
Definition MessageRuntime_init : MessageRuntime := {|
  _routes := [];
  _before_hooks := [];
  _after_hooks := [];
  _error_hooks := [];
  _batch_handler := None;
  _middlewares := [];
  _type_routes := ∅;
  _event_routes := ∅;
  _explicit_type_handlers := ∅;
|}.

(** The values the [message_type] argument is dispatched on: [None], an
    instance of [str], an instance of [list] (of strings, as annotated), or
    any other value (an [int], a [dict], a [tuple], ...). *)
Inductive message_type_arg :=
| MtNone
| MtStr (s : string)
| MtList (l : list string)
| MtOther (v : other_value).

Definition message_type_error (v : pyval) : exn :=
  TypeError ("message_type must be str or list[str], got " +:+ type_repr v).

Definition duplicate_type_error (msg_type existing_handler handler_name : string) : exn :=
  ValueError ("消息类型 '" +:+ msg_type +:+ "' 已被处理器 '" +:+ existing_handler
              +:+ "' 明确注册，不能再由 '" +:+ handler_name
              +:+ "' 注册。同一消息类型只能有一个明确的处理器。").

(** The shape test at the head of [add_route] and of [on_message]: the
    set of types and, for [add_route], the single type. *)
Definition message_types_of (message_type : message_type_arg)
  : outcome (option (list string) * option string) :=
  match message_type with
  | MtNone => Ok (None, None)
  | MtStr s => Ok (Some [s], Some s)
  | MtList l =>
      let message_types_set := set_of_list l in
      Ok (Some message_types_set,
          match message_types_set with [x] => Some x | _ => None end)
  | MtOther v => Raise (message_type_error (other_to_pyval v))
  end.

(** [name or getattr(handler, "__name__", str(handler))] *)
Definition handler_name_of (name : option string) (handler : MessageHandler) : string :=
  match name with
  | Some n => if String.eqb n EmptyString then handler_display handler else n
  | None => handler_display handler
  end.

(** The duplicate-registration loop of [add_route]: each type is tested
    against [_explicit_type_handlers] and recorded there at once. *)
Fixpoint claim_types (handler_name : string) (types : list string)
    (owners : gmap string string) : outcome unit * gmap string string :=
  match types with
  | [] => (Ok (), owners)
  | msg_type :: rest =>
      match owners !! msg_type with
      | Some existing_handler =>
          (Raise (duplicate_type_error msg_type existing_handler handler_name),
           owners)
      | None => claim_types handler_name rest (<[msg_type := handler_name]> owners)
      end
  end.

(** [for k in keys: index.setdefault(k, []).append(route)] *)
Definition index_route (route : MessageRoute) (keys : list string)
    (index : gmap string (list MessageRoute)) : gmap string (list MessageRoute) :=
  foldl (λ idx k, <[k := default [] (idx !! k) ++ [route]]> idx) index keys.

Definition set_owners (owners : gmap string string) (rt : MessageRuntime) : MessageRuntime := {|
  _routes := _routes rt;
  _before_hooks := _before_hooks rt;
  _after_hooks := _after_hooks rt;
  _error_hooks := _error_hooks rt;
  _batch_handler := _batch_handler rt;
  _middlewares := _middlewares rt;
  _type_routes := _type_routes rt;
  _event_routes := _event_routes rt;
  _explicit_type_handlers := owners;
|}.

(** The tail of [add_route]: the route object is created, appended to
    [_routes] and indexed under each of its types and event types. *)
Definition insert_route (predicate : Predicate) (handler : MessageHandler)
    (name : option string) (single_message_type : option string)
    (message_types_set : option (list string)) (event_types : option (list string))
    (rt : MessageRuntime) : MessageRuntime :=
  let route := {|
    route_id := length (_routes rt);
    predicate := predicate;
    handler := handler;
    name := name;
    message_type := single_message_type;
    message_types := message_types_set;
    event_types := set_of_list <$> event_types;
  |} in
  {|
    _routes := _routes rt ++ [route];
    _before_hooks := _before_hooks rt;
    _after_hooks := _after_hooks rt;
    _error_hooks := _error_hooks rt;
    _batch_handler := _batch_handler rt;
    _middlewares := _middlewares rt;
    _type_routes := index_route route (default [] message_types_set) (_type_routes rt);
    _event_routes :=
      index_route route (default [] (set_of_list <$> event_types)) (_event_routes rt);
    _explicit_type_handlers := _explicit_type_handlers rt;
  |}.

(** [MessageRuntime.add_route]: the outcome of the call and the runtime it
    leaves behind, also when it raises. *)
Definition add_route (predicate : Predicate) (handler : MessageHandler)
    (name : option string) (message_type : message_type_arg)
    (event_types : option (list string)) (rt : MessageRuntime)
  : outcome unit * MessageRuntime :=
  match message_types_of message_type with
  | Raise e => (Raise e, rt)
  | Ok (message_types_set, single_message_type) =>
      let '(checked, owners) :=
        match message_types_set with
        | Some types =>
            claim_types (handler_name_of name handler) types (_explicit_type_handlers rt)
        | None => (Ok (), _explicit_type_handlers rt)
        end in
      match checked with
      | Raise e => (Raise e, set_owners owners rt)
      | Ok _ =>
          (Ok (), insert_route predicate handler name single_message_type
                    message_types_set event_types (set_owners owners rt))
      end
  end.

(** *** Matching ([_match_route]) *)

(** The event tag: [message.get("event_type") or
    message.get("message_info", {}).get("additional_config", {}).get("event_type")]. *)
Definition event_type_of (message : envelope) : outcome pyval :=
  py_or_lazy (dict_get message "event_type" PNone)
    (additional_config ←
       py_get (dict_get message "message_info" (PDict ∅)) "additional_config" (PDict ∅);
     py_get additional_config "event_type" PNone).

(** [index[key]] when [key and key in index], nothing otherwise. *)
Definition bucket_for (key : pyval) (index : gmap string (list MessageRoute))
  : outcome (list MessageRoute) :=
  if truthy key then
    present ← py_in_keys key index;
    Ok (if (present : bool)
        then match key with PStr s => default [] (index !! s) | _ => [] end
        else [])
  else Ok [].

(** Routes registered under the envelope's event type, then those
    registered under its segment type. *)
Definition priority_candidates (rt : MessageRuntime) (message : envelope)
  : outcome (list MessageRoute) :=
  let message_type := _extract_segment_type message in
  event_type ← event_type_of message;
  from_events ← bucket_for event_type (_event_routes rt);
  from_types ← bucket_for message_type (_type_routes rt);
  Ok (from_events ++ from_types).

Definition is_generic (route : MessageRoute) : bool :=
  match message_types route, event_types route with
  | None, None => true
  | _, _ => false
  end.

Definition normal_candidates (rt : MessageRuntime) : list MessageRoute :=
  filter (λ route, is_generic route = true) (_routes rt).

(** One candidate loop of [_match_route]: candidates whose identity is in
    [seen] are skipped, the others have their predicate evaluated; the
    first truthy answer ends the search. *)
Fixpoint scan (message : envelope) (candidates : list MessageRoute) (seen : gset nat)
  : outcome (option MessageRoute * gset nat) :=
  match candidates with
  | [] => Ok (None, seen)
  | route :: rest =>
      let rid := route_id route in
      if decide (rid ∈ seen) then scan message rest seen
      else
        match predicate route message with
        | Raise e => Raise e
        | Ok should_handle =>
            if truthy should_handle then Ok (Some route, {[rid]} ∪ seen)
            else scan message rest ({[rid]} ∪ seen)
        end
  end.

Definition _match_route (rt : MessageRuntime) (message : envelope)
  : outcome (option MessageRoute) :=
  priority ← priority_candidates rt message;
  let normal := normal_candidates rt in
  found ← scan message priority ∅;
  match found with
  | (Some route, _) => Ok (Some route)
  | (None, seen) =>
      found ← scan message normal seen;
      Ok (fst found)
  end.

(** *** Hooks *)

(** A task run to its end, with nothing else running in between. *)
Fixpoint finish {A} (t : task A) (w : W) : outcome A * W :=
  match t with
  | Finished o => (o, w)
  | Running effect next => finish (next w) (effect w)
  end.

(** The state of a [gather] on the way: the tasks as far as they have got,
    the exception of the first task that failed, if any, and the world. *)
Definition gathering : Type := list (task unit) * option exn * W.

(** The loop resumes the task at position [i] for one step; a position
    whose task has ended, or that names no task, is passed over. *)
Definition resume (i : nat) (st : gathering) : gathering :=
  let '(ts, failed, w) := st in
  match ts !! i with
  | Some (Running effect next) =>
      let t := next w in
      (<[i := t]> ts,
       match failed, t with
       | None, Finished (Raise e) => Some e
       | _, _ => failed
       end,
       effect w)
  | _ => st
  end.

(** Waiting for the tasks still on their way, taken one after the other. *)
Fixpoint drain (ts : list (task unit)) : M unit :=
  match ts with
  | [] => ret ()
  | t :: rest => _ ⇐ finish t; drain rest
  end.

(** [await asyncio.gather(...)] over a list of tasks, without
    [return_exceptions]: the tasks are resumed in the order the event loop
    takes, here [interleaving w].  The exception of the first task to fail,
    first in time, is the one propagated; the tasks that have not ended by
    the time the caller goes on are not cancelled and not waited for, and
    what they do later is no part of the call.  When no task has failed the
    caller waits until every task has ended. *)
Definition gather (tasks : list (task unit)) : M unit := λ w,
  let '(ts, failed, w1) := foldl (λ st i, resume i st) (tasks, None, w) (interleaving w) in
  match failed with
  | Some e => (Raise e, w1)
  | None => drain ts w1
  end.

Definition _call_hook (hook : Hook) (message : envelope) : task unit := hook message.

(** [gather] is awaited only when there is a hook. *)
Definition _run_hooks (hooks : list Hook) (message : envelope) : M unit :=
  let coro_list := (λ hook, _call_hook hook message) <$> hooks in
  match coro_list with
  | [] => ret ()
  | _ :: _ => gather coro_list
  end.

Definition _call_error_hook (hook : ErrorHook) (message : envelope) (exc : exn)
  : task unit :=
  hook message exc.

Definition _run_error_hooks (rt : MessageRuntime) (message : envelope) (exc : exn) : M unit :=
  let coros := (λ hook, _call_error_hook hook message exc) <$> _error_hooks rt in
  match coros with
  | [] => ret ()
  | _ :: _ => gather coros
  end.

(** *** Middleware chain ([_wrap_with_middlewares]) *)

Definition base_handler (handler : MessageHandler) : MiddlewareCallable :=
  λ message, handler_call handler message.

Definition _wrap_with_middlewares (rt : MessageRuntime) (handler : MessageHandler)
  : MiddlewareCallable :=
  foldl (λ (wrapped : MiddlewareCallable) (middleware : Middleware),
           (λ msg, middleware msg wrapped) : MiddlewareCallable)
        (base_handler handler) (rev (_middlewares rt)).

(** *** Dispatch ([handle_message], [handle_batch]) *)

(** [MessageProcessingError(message, original)] *)
Definition new_MessageProcessingError (message : envelope) (original : exn) : exn :=
  let detail := dict_get message "id" (PStr "<unknown>") in
  MessageProcessingError message original
    ("处理消息 " +:+ py_str detail +:+ " 时出错: " +:+ exn_str original) None.

(** [raise e from cause_] *)
Definition raise_from {A} (e cause_ : exn) : M A :=
  raise match e with
        | MessageProcessingError m o t _ => MessageProcessingError m o t (Some cause_)
        | _ => e
        end.

(** [try: body  except Exception as exc: on_error(exc)] *)
Definition try_except {A} (body : M A) (on_error : exn → M A) : M A := λ w,
  match body w with
  | (Ok a, w1) => (Ok a, w1)
  | (Raise exc, w1) =>
      if is_Exception exc then on_error exc w1 else (Raise exc, w1)
  end.

(** The body of the [try] block: [None] stands for the early
    [return None] taken when no route matches. *)
Definition dispatch (rt : MessageRuntime) (message : envelope) : M (option pyval) :=
  route ⇐ lift (_match_route rt message);
  match route with
  | None => ret None
  | Some route =>
      result ⇐ _wrap_with_middlewares rt (handler route) message;
      ret (Some result)
  end.

Definition handle_message (rt : MessageRuntime) (message : envelope) : M pyval :=
  _ ⇐ _run_hooks (_before_hooks rt) message;
  returned ⇐ try_except (dispatch rt message)
               (λ exc, _ ⇐ _run_error_hooks rt message exc;
                       raise_from (new_MessageProcessingError message exc) exc);
  match returned with
  | None => ret PNone
  | Some result =>
      _ ⇐ _run_hooks (_after_hooks rt) message;
      ret result
  end.

(** The loop of [handle_batch], [responses] being the list built so far. *)
Fixpoint handle_each (rt : MessageRuntime) (batch : list envelope) (responses : list pyval)
  : M (list pyval) :=
  match batch with
  | [] => ret responses
  | message :: rest =>
      response ⇐ handle_message rt message;
      handle_each rt rest
        (if is_none response then responses else responses ++ [response])
  end.

Definition handle_batch (rt : MessageRuntime) (messages : list envelope) : M pyval :=
  let batch := messages in
  match batch with
  | [] => ret (PList [])
  | _ :: _ =>
      match _batch_handler rt with
      | Some batch_handler =>
          result ⇐ batch_handler batch;
          ret (py_or result (PList []))
      | None =>
          responses ⇐ handle_each rt batch [];
          ret (PList responses)
      end
  end.

(** *** Registration helpers *)

Definition set_batch_handler (h : BatchHandler) (rt : MessageRuntime) : MessageRuntime := {|
  _routes := _routes rt;
  _before_hooks := _before_hooks rt;
  _after_hooks := _after_hooks rt;
  _error_hooks := _error_hooks rt;
  _batch_handler := Some h;
  _middlewares := _middlewares rt;
  _type_routes := _type_routes rt;
  _event_routes := _event_routes rt;
  _explicit_type_handlers := _explicit_type_handlers rt;
|}.

Definition register_before_hook (hook : Hook) (rt : MessageRuntime) : MessageRuntime := {|
  _routes := _routes rt;
  _before_hooks := _before_hooks rt ++ [hook];
  _after_hooks := _after_hooks rt;
  _error_hooks := _error_hooks rt;
  _batch_handler := _batch_handler rt;
  _middlewares := _middlewares rt;
  _type_routes := _type_routes rt;
  _event_routes := _event_routes rt;
  _explicit_type_handlers := _explicit_type_handlers rt;
|}.

Definition register_after_hook (hook : Hook) (rt : MessageRuntime) : MessageRuntime := {|
  _routes := _routes rt;
  _before_hooks := _before_hooks rt;
  _after_hooks := _after_hooks rt ++ [hook];
  _error_hooks := _error_hooks rt;
  _batch_handler := _batch_handler rt;
  _middlewares := _middlewares rt;
  _type_routes := _type_routes rt;
  _event_routes := _event_routes rt;
  _explicit_type_handlers := _explicit_type_handlers rt;
|}.

Definition register_error_hook (hook : ErrorHook) (rt : MessageRuntime) : MessageRuntime := {|
  _routes := _routes rt;
  _before_hooks := _before_hooks rt;
  _after_hooks := _after_hooks rt;
  _error_hooks := _error_hooks rt ++ [hook];
  _batch_handler := _batch_handler rt;
  _middlewares := _middlewares rt;
  _type_routes := _type_routes rt;
  _event_routes := _event_routes rt;
  _explicit_type_handlers := _explicit_type_handlers rt;
|}.

Definition register_middleware (middleware : Middleware) (rt : MessageRuntime) : MessageRuntime := {|
  _routes := _routes rt;
  _before_hooks := _before_hooks rt;
  _after_hooks := _after_hooks rt;
  _error_hooks := _error_hooks rt;
  _batch_handler := _batch_handler rt;
  _middlewares := _middlewares rt ++ [middleware];
  _type_routes := _type_routes rt;
  _event_routes := _event_routes rt;
  _explicit_type_handlers := _explicit_type_handlers rt;
|}.

(** *** The [on_message] decorator *)

(** The predicate [on_message] builds from its [message_type], [platform]
    and [predicate] arguments. *)
Definition combined_predicate (message_types_set : option (list string))
    (platform : option string) (predicate : option Predicate) : Predicate :=
  λ message,
    type_ok ←
      match message_types_set with
      | Some types => py_in_set (_extract_segment_type message) types
      | None => Ok true
      end;
    if negb type_ok then Ok (PBool false) else
    platform_ok ←
      match platform with
      | Some platform =>
          info_platform ←
            py_get (dict_get message "message_info" (PDict ∅)) "platform" PNone;
          if negb (in_none_or platform (dict_get message "platform" PNone))
             && is_none info_platform
          then Ok false
          else if negb (in_none_or platform info_platform) then Ok false
          else Ok true
      | None => Ok true
      end;
    if negb platform_ok then Ok (PBool false) else
    match predicate with
    | None => Ok (PBool true)
    | Some predicate => predicate message
    end.

(** The descriptor returned for a function that looks like an instance
    method; its route is registered when an instance is created. *)
Record _InstanceMethodRoute := {
  _func : MessageHandler;
  _predicate : Predicate;
  _name : option string;
  _message_type : message_type_arg;
}.

(** [runtime.on_message(func, message_type=..., platform=..., predicate=...,
    name=...)]: a plain function is registered at once, a method is
    deferred. *)
Definition on_message (func : MessageHandler) (message_type : message_type_arg)
    (platform : option string) (predicate : option Predicate) (name : option string)
    (rt : MessageRuntime) : outcome (option _InstanceMethodRoute) * MessageRuntime :=
  match message_types_of message_type with
  | Raise e => (Raise e, rt)
  | Ok (message_types_set, _) =>
      let combined := combined_predicate message_types_set platform predicate in
      if looks_like_method func then
        (Ok (Some {| _func := func; _predicate := combined;
                     _name := name; _message_type := message_type |}), rt)
      else
        match add_route combined func name message_type None rt with
        | (Ok _, rt') => (Ok None, rt')
        | (Raise e, rt') => (Raise e, rt')
        end
  end.

(** ** The adapter bridge ([AdapterBase._on_outgoing_from_core]) *)

(** The part of an adapter the bridge uses: its [platform] attribute and
    its [_send_platform_message] method. *)
Record AdapterBase := {
  platform : string;
  _send_platform_message : envelope → M unit;
}.

Definition _on_outgoing_from_core (self : AdapterBase) (envelope_ : envelope) : M unit :=
  tag ⇐ lift (py_or_lazy (dict_get envelope_ "platform" PNone)
                (py_get (dict_get envelope_ "message_info" (PDict ∅)) "platform" PNone));
  if truthy tag && py_ne_str tag (platform self) then ret ()
  else _send_platform_message self envelope_.

(** The platform tag an envelope carries, in the words of the
    specification: the top-level [platform] field when it is set, the
    [platform] field of [message_info] otherwise. *)
Definition carried_tag (E : envelope) : option pyval :=
  match E !! "platform" with
  | Some v => if truthy v then Some v else
      match E !! "message_info" with
      | Some (PDict info) =>
          match info !! "platform" with
          | Some v' => if truthy v' then Some v' else None
          | None => None
          end
      | _ => None
      end
  | None =>
      match E !! "message_info" with
      | Some (PDict info) =>
          match info !! "platform" with
          | Some v' => if truthy v' then Some v' else None
          | None => None
          end
      | _ => None
      end
  end.

(** ** Notions used by the statements *)

(** A route holds a type (an event type) when it was registered with it. *)
Definition holds_type (route : MessageRoute) (t : string) : Prop :=
  ∃ types, message_types route = Some types ∧ t ∈ types.

Definition holds_event (route : MessageRoute) (e : string) : Prop :=
  ∃ events, event_types route = Some events ∧ e ∈ events.

(** [route] is in the bucket of [index] under [k]. *)
Definition in_bucket (index : gmap string (list MessageRoute)) (k : string)
    (route : MessageRoute) : Prop :=
  ∃ bucket, index !! k = Some bucket ∧ route ∈ bucket.

(** The runtimes a program can build: every registration goes through
    [add_route] or one of the [register_*] methods. *)
Inductive reachable : MessageRuntime → Prop :=
| reach_init : reachable MessageRuntime_init
| reach_add_route predicate handler name message_type event_types rt :
    reachable rt →
    reachable (snd (add_route predicate handler name message_type event_types rt))
| reach_before_hook hook rt :
    reachable rt → reachable (register_before_hook hook rt)
| reach_after_hook hook rt :
    reachable rt → reachable (register_after_hook hook rt)
| reach_error_hook hook rt :
    reachable rt → reachable (register_error_hook hook rt)
| reach_middleware middleware rt :
    reachable rt → reachable (register_middleware middleware rt)
| reach_batch_handler h rt :
    reachable rt → reachable (set_batch_handler h rt).

(** The identity of a route is its position in [_routes], and the two
    indices list exactly the routes that hold the key. *)
Record registry_ok (rt : MessageRuntime) : Prop := {
  ids_are_positions :
    ∀ r, r ∈ _routes rt → _routes rt !! route_id r = Some r;
  type_index_sound :
    ∀ t r, in_bucket (_type_routes rt) t r → r ∈ _routes rt ∧ holds_type r t;
  type_index_complete :
    ∀ t r, r ∈ _routes rt → holds_type r t → in_bucket (_type_routes rt) t r;
  event_index_sound :
    ∀ e r, in_bucket (_event_routes rt) e r → r ∈ _routes rt ∧ holds_event r e;
  event_index_complete :
    ∀ e r, r ∈ _routes rt → holds_event r e → in_bucket (_event_routes rt) e r;
}.

(** [route] is registered under the non-empty segment type of [message],
    or under its non-empty event type. *)
Definition priority_for (rt : MessageRuntime) (message : envelope)
    (route : MessageRoute) : Prop :=
  route ∈ _routes rt ∧
  ((∃ t, _extract_segment_type message = PStr t ∧ t ≠ EmptyString ∧ holds_type route t) ∨
   (∃ e, event_type_of message = Ok (PStr e) ∧ e ≠ EmptyString ∧ holds_event route e)).

(** The predicate of [route] answers falsy on [message]. *)
Definition yields_falsy (message : envelope) (route : MessageRoute) : Prop :=
  ∃ v, predicate route message = Ok v ∧ truthy v = false.

Definition yields_truthy (message : envelope) (route : MessageRoute) : Prop :=
  ∃ v, predicate route message = Ok v ∧ truthy v = true.

(** The world after every computation of a list has run, in order. *)
Definition run_each (tasks : list (M unit)) (w : W) : W :=
  foldl (λ w task, snd (task w)) w tasks.

(** A task can end with the exception [e]; it ends with an exception in
    whatever worlds it is resumed; it never ends with one. *)
Fixpoint may_raise {A} (t : task A) (e : exn) : Prop :=
  match t with
  | Finished (Raise e') => e' = e
  | Finished (Ok _) => False
  | Running _ next => ∃ w, may_raise (next w) e
  end.

Fixpoint always_raises {A} (t : task A) : Prop :=
  match t with
  | Finished (Raise _) => True
  | Finished (Ok _) => False
  | Running _ next => ∀ w, always_raises (next w)
  end.

Definition never_raises {A} (t : task A) : Prop := ∀ e, ¬ may_raise t e.

(** [t'] is what is left of [t] after some steps, as far as exceptions
    go: it can only raise what [t] could, and it raises when [t] had to. *)
Definition evolves (t t' : task unit) : Prop :=
  (∀ e, may_raise t' e → may_raise t e) ∧ (always_raises t → always_raises t').

(** [runs_all ts w w']: from the world [w] the tasks of [ts] are resumed
    step by step, in some order, until every one of them has ended without
    an exception; [w'] is the world then. *)
Inductive runs_all : list (task unit) → W → W → Prop :=
| runs_all_done ts w :
    Forall (λ t, t = Finished (Ok ())) ts → runs_all ts w w
| runs_all_step ts i effect next w w' :
    ts !! i = Some (Running effect next) →
    runs_all (<[i := next w]> ts) (effect w) w' →
    runs_all ts w w'.

(** Running a list of calls one after the other, stopping at the first
    exception. *)
Fixpoint mapM {A B} (f : A → M B) (xs : list A) : M (list B) :=
  match xs with
  | [] => ret []
  | x :: rest => y ⇐ f x; ys ⇐ mapM f rest; ret (y :: ys)
  end.

Definition not_none (v : pyval) : Prop := is_none v = false.
#[global] Instance not_none_dec v : Decision (not_none v).
Proof. unfold not_none. apply _. Defined.

(** A middleware written in the onion style: it does something with the
    message on the way in, awaits [next] once, and does something with the
    result on the way out. *)
Definition onion_middleware (enter : envelope → M envelope) (leave : pyval → M pyval)
  : Middleware :=
  λ msg next, msg' ⇐ enter msg; result ⇐ next msg'; leave result.

(** Kleisli composition of a list of steps, first element first. *)
Fixpoint pipeline {A} (steps : list (A → M A)) (a : A) : M A :=
  match steps with
  | [] => ret a
  | step :: rest => a' ⇐ step a; pipeline rest a'
  end.

(** The envelope carries no platform information. *)
Definition no_platform_info (E : envelope) : Prop :=
  E !! "platform" = None ∧
  (E !! "message_info" = None ∨
   ∃ info, E !! "message_info" = Some (PDict info) ∧ info !! "platform" = None).

(** [message_info], when present, is a mapping, as [MessageEnvelope]
    declares it. *)
Definition message_info_typed (E : envelope) : Prop :=
  match E !! "message_info" with
  | Some (PDict _) | None => True
  | Some _ => False
  end.


(** The message-type test and the custom test of [on_message] pass on an
    envelope: its segment type is one of the types asked for, when types
    were asked for; the custom predicate, when there is one, answers
    truthy. *)
Definition type_test_passes (types : option (list string)) (E : envelope) : Prop :=
  match types with
  | None => True
  | Some ts => ∃ t, _extract_segment_type E = PStr t ∧ t ∈ ts
  end.


(** ** The [route] decorator and deferred method routes *)

(** [runtime.route(predicate, name)(func)] *)
Definition route (predicate : Predicate) (name : option string) (func : MessageHandler)
    (rt : MessageRuntime) : outcome (option _InstanceMethodRoute) * MessageRuntime :=
  if looks_like_method func then
    (Ok (Some {| _func := func; _predicate := predicate;
                 _name := name; _message_type := MtNone |}), rt)
  else
    match add_route predicate func name MtNone None rt with
    | (Ok _, rt') => (Ok None, rt')
    | (Raise e, rt') => (Raise e, rt')
    end.

(** [func.__get__(instance, owner)]: the bound method keeps the name of the
    function and is a method for [inspect.ismethod]; [call] is what the
    function does once its [self] is fixed. *)
Definition bound_method (func : MessageHandler) (call : envelope → M pyval)
  : MessageHandler := {|
  handler_call := call;
  handler_display := handler_display func;
  looks_like_method := true;
|}.

(** [_InstanceMethodRoute._register_instance]: [registered] is
    [_registered_instances], instances being told apart by identity, and
    [body instance] is the decorated function with [self] set to
    [instance].  The result gives the set and the runtime after the call. *)
Definition _register_instance (self : _InstanceMethodRoute)
    (body : nat → envelope → M pyval) (instance : nat)
    (registered : gset nat) (rt : MessageRuntime)
  : outcome unit * (gset nat * MessageRuntime) :=
  if decide (instance ∈ registered) then (Ok (), (registered, rt))
  else
    let bound := bound_method (_func self) (body instance) in
    match add_route (_predicate self) bound (_name self) (_message_type self) None rt with
    | (Ok _, rt') => (Ok (), ({[instance]} ∪ registered, rt'))
    | (Raise e, rt') => (Raise e, (registered, rt'))
    end.

(** ** Core sinks and the inbound side of the adapter ([adapter_utils.py]) *)

Section adapter_utils.

(** [for x in xs: await f(x)] *)
Fixpoint for_each {A} (f : A → M unit) (xs : list A) : M unit :=
  match xs with
  | [] => ret ()
  | x :: rest => _ ⇐ f x; for_each f rest
  end.

(** [try: await c  except Exception: logger.exception(...)] *)
Definition swallow (c : M unit) : M unit := try_except c (λ _, ret ()).

(** A callback as a set element: callables are hashed and compared by
    [callback_key] (for a bound method, the object and function it binds). *)
Record OutgoingHandler := {
  callback_key : nat;
  callback : envelope → M unit;
}.

(** The iteration order of a set of callbacks, which Python leaves
    unspecified. *)
Variable handlers_order : gmap nat OutgoingHandler → list OutgoingHandler.
Hypothesis handlers_order_perm : ∀ m, handlers_order m ≡ₚ (map_to_list m).*2.

Record InProcessCoreSink := {
  _handler : envelope → M unit;
  _outgoing_handlers : gmap nat OutgoingHandler;
}.

(** [InProcessCoreSink(handler)] *)
Definition InProcessCoreSink_init (handler : envelope → M unit) : InProcessCoreSink := {|
  _handler := handler;
  _outgoing_handlers := ∅;
|}.

(** [set.add]: an element equal to one already present is not added. *)
Definition InProcessCoreSink_set_outgoing_handler (handler : option OutgoingHandler)
    (self : InProcessCoreSink) : InProcessCoreSink :=
  match handler with
  | None => self
  | Some h => {|
      _handler := _handler self;
      _outgoing_handlers :=
        match _outgoing_handlers self !! callback_key h with
        | Some _ => _outgoing_handlers self
        | None => <[callback_key h := h]> (_outgoing_handlers self)
        end;
    |}
  end.

(** [set.discard] *)
Definition InProcessCoreSink_remove_outgoing_handler (handler : OutgoingHandler)
    (self : InProcessCoreSink) : InProcessCoreSink := {|
  _handler := _handler self;
  _outgoing_handlers := delete (callback_key handler) (_outgoing_handlers self);
|}.

Definition InProcessCoreSink_send (self : InProcessCoreSink) (message : envelope) : M unit :=
  _handler self message.

Definition InProcessCoreSink_send_many (self : InProcessCoreSink)
    (messages : list envelope) : M unit :=
  for_each (_handler self) messages.

Definition InProcessCoreSink_push_outgoing (self : InProcessCoreSink)
    (envelope_ : envelope) : M unit :=
  if decide (size (_outgoing_handlers self) = 0) then ret ()
  else for_each (λ cb, callback cb envelope_) (handlers_order (_outgoing_handlers self)).

Definition InProcessCoreSink_close (self : InProcessCoreSink) : InProcessCoreSink := {|
  _handler := _handler self;
  _outgoing_handlers := ∅;
|}.

(** What [_send_many] and the adapter use of a sink: [send], and
    [send_many] when the sink has one. *)
Record CoreMessageSink := {
  sink_send : envelope → M unit;
  sink_send_many : option (list envelope → M unit);
}.

Definition InProcessCoreSink_sink (self : InProcessCoreSink) : CoreMessageSink := {|
  sink_send := InProcessCoreSink_send self;
  sink_send_many := Some (InProcessCoreSink_send_many self);
|}.

Definition _send_many (sink : CoreMessageSink) (envelopes : list envelope) : M unit :=
  match sink_send_many sink with
  | Some send_many => send_many envelopes
  | None => for_each (sink_send sink) envelopes
  end.

(** The inbound side of an adapter: the conversion a subclass supplies and
    the sink it was given. *)
Record AdapterInbound := {
  from_platform_message : pyval → M envelope;
  core_sink : CoreMessageSink;
}.

Definition on_platform_message (self : AdapterInbound) (raw : pyval) : M unit :=
  envelope_ ⇐ from_platform_message self raw;
  sink_send (core_sink self) envelope_.

Definition on_platform_messages (self : AdapterInbound) (raw_messages : list pyval)
  : M unit :=
  envelopes ⇐ mapM (from_platform_message self) raw_messages;
  _send_many (core_sink self) envelopes.

(** [orjson.loads] and [orjson.dumps], taken as given. *)
Variable orjson_loads : string → outcome pyval.
Variable orjson_dumps : pyval → outcome string.

(** [v == s] for a string [s]. *)
Definition py_eq_str (v : pyval) (s : string) : bool := negb (py_ne_str v s).

Definition _default_ws_parser (raw : string) : outcome pyval :=
  data ← orjson_loads raw;
  match data with
  | PDict d =>
      if py_eq_str (dict_get d "type" PNone) "message"
         && bool_decide (is_Some (d !! "payload"))
      then Ok (default PNone (d !! "payload"))
      else Ok data
  | _ => Ok data
  end.

Definition _default_ws_encoder (envelope_ : envelope) : outcome string :=
  orjson_dumps (PDict {[ "type" := PStr "send"; "payload" := PDict envelope_ ]}).

(** [_ws_listen_loop]: [frames] are the frames the socket delivers and
    [ending] is how the iteration over the socket ends after them, by
    coming to its end or by raising, which happens outside the [try]
    block; [closed] is [self._closed], set from outside the loop and read
    once a frame has come; [incoming_parser] is the option of that name. *)
Fixpoint _ws_listen_loop (self : AdapterInbound) (closed : bool)
    (incoming_parser : option (string → outcome pyval)) (frames : list string)
    (ending : outcome unit) : M unit :=
  match frames with
  | [] => lift ending
  | raw :: rest =>
      if closed then ret ()
      else
        let parser := default _default_ws_parser incoming_parser in
        _ ⇐ swallow (payload ⇐ lift (parser raw); on_platform_message self payload);
        _ws_listen_loop self closed incoming_parser rest ending
  end.

(** *** The queue protocol between processes

    A queue is the list of the frames it holds, oldest first, and a frame
    comes out as it was put in; a consumer loop is run on the frames it
    gets until it leaves the loop or finds the queue empty. *)

Definition _CONTROL_STOP : pyval := PDict {[ "__core_sink_control__" := PStr "stop" ]}.

Definition incoming_frame (message : envelope) : pyval :=
  PDict {[ "kind" := PStr "incoming"; "payload" := PDict message ]}.

Definition outgoing_frame (envelope_ : envelope) : pyval :=
  PDict {[ "kind" := PStr "outgoing"; "payload" := PDict envelope_ ]}.

(** [queue.put(item)] *)
Definition queue_put (item : pyval) (queue : list pyval) : list pyval := queue ++ [item].

(** [ProcessCoreSink.send] and [send_many], on the queue to the core. *)
Definition ProcessCoreSink_send (message : envelope) (to_core_queue : list pyval)
  : list pyval :=
  queue_put (incoming_frame message) to_core_queue.

Definition ProcessCoreSink_send_many (messages : list envelope)
    (to_core_queue : list pyval) : list pyval :=
  foldl (λ queue message, ProcessCoreSink_send message queue) to_core_queue messages.

(** [ProcessCoreSinkServer.push_outgoing], on the queue from the core. *)
Definition ProcessCoreSinkServer_push_outgoing (envelope_ : envelope)
    (outgoing_queue : list pyval) : list pyval :=
  queue_put (outgoing_frame envelope_) outgoing_queue.

(** [ProcessCoreSinkServer.close]: the flag, the incoming and the outgoing
    queue after the call. *)
Definition ProcessCoreSinkServer_close (closed : bool)
    (incoming_queue outgoing_queue : list pyval) : bool * list pyval * list pyval :=
  if closed then (closed, incoming_queue, outgoing_queue)
  else (true,
        queue_put (PDict {[ "__core_sink_control__" := PStr "stop" ]}) incoming_queue,
        queue_put _CONTROL_STOP outgoing_queue).

(** [item == self._CONTROL_STOP]: a dictionary with that one key and the
    value ["stop"]. *)
Definition is_control_stop (item : pyval) : bool :=
  match item with
  | PDict d =>
      bool_decide (dom d = {[ "__core_sink_control__" ]})
      && py_eq_str (dict_get d "__core_sink_control__" PNone) "stop"
  | _ => false
  end.

(** [isinstance(item, dict) and item.get(k) == s] *)
Definition dict_field_is (item : pyval) (k s : string) : bool :=
  match item with
  | PDict d => py_eq_str (dict_get d k PNone) s
  | _ => false
  end.

(** [item.get("payload")] of an item known to be a dictionary. *)
Definition payload_of (item : pyval) : pyval :=
  match item with
  | PDict d => dict_get d "payload" PNone
  | _ => PNone
  end.

(** How a run of a consumer loop ends: it left the loop, or it waits on an
    empty queue. *)
Inductive loop_end := Stopped | Waiting.

(** [ProcessCoreSink._listen_from_core] *)
Fixpoint _listen_from_core (closed : bool) (outgoing_handler : option (pyval → M unit))
    (items : list pyval) : M loop_end :=
  if closed then ret Stopped else
  match items with
  | [] => ret Waiting
  | item :: rest =>
      if is_control_stop item then ret Stopped
      else if dict_field_is item "kind" "outgoing" then
        let envelope_ := payload_of item in
        _ ⇐ match outgoing_handler with
            | Some handler => swallow (handler envelope_)
            | None => ret ()
            end;
        _listen_from_core closed outgoing_handler rest
      else _listen_from_core closed outgoing_handler rest
  end.

(** [ProcessCoreSinkServer._consume_incoming] *)
Fixpoint _consume_incoming (closed : bool) (core_handler : pyval → M unit)
    (items : list pyval) : M loop_end :=
  if closed then ret Stopped else
  match items with
  | [] => ret Waiting
  | item :: rest =>
      if dict_field_is item "__core_sink_control__" "stop" then ret Stopped
      else if dict_field_is item "kind" "incoming" then
        let envelope_ := payload_of item in
        _ ⇐ swallow (core_handler envelope_);
        _consume_incoming closed core_handler rest
      else _consume_incoming closed core_handler rest
  end.

(** *** The reconnect loop ([AdapterBase._ws_connect_loop])

    One turn of the loop dials once; what the network and the other tasks
    do in that turn is given by a [dial_event]. *)

Inductive listen_end :=
| ListenReturned   (* the iteration over the socket ended *)
| ListenFailed     (* it raised an [Exception] *)
| ListenCancelled. (* it raised [CancelledError] *)

Inductive dial_outcome :=
| DialFailed                 (* [websockets.connect] raised an [Exception] *)
| DialCancelled              (* it raised [CancelledError] *)
| Connected (l : listen_end).

Record dial_event := {
  dial : dial_outcome;
  closed_in_handler : bool;  (* [self._closed] as read in the [except] clause *)
  sleep_cancelled : bool;    (* the [asyncio.sleep] raised [CancelledError] *)
  closed_at_head : bool;     (* [self._closed] as read by the next [while] test *)
}.

Inductive loop_action := ActDial | ActSleep.

Inductive loop_status :=
| GaveUp      (* more failures than [max_reconnect_attempts] *)
| Closed      (* [self._closed] was seen set *)
| Cancelled   (* [CancelledError] *)
| Dialling.   (* the loop is still running *)

Record loop_report := {
  actions : list loop_action;
  status : loop_status;
  reconnect_attempts : nat;
}.

Definition then_report (done : list loop_action) (r : loop_report) : loop_report := {|
  actions := done ++ actions r;
  status := status r;
  reconnect_attempts := reconnect_attempts r;
|}.

Definition end_report (done : list loop_action) (s : loop_status) (attempts : nat)
  : loop_report := {| actions := done; status := s; reconnect_attempts := attempts |}.

(** [max_attempts is not None and self._reconnect_attempts > max_attempts] *)
Definition exceeds (attempts : nat) (max_attempts : option Z) : bool :=
  match max_attempts with
  | Some m => (m <? Z.of_nat attempts)%Z
  | None => false
  end.

Fixpoint _ws_connect_loop (max_reconnect_attempts : option Z) (script : list dial_event)
    (closed : bool) (attempts : nat) : loop_report :=
  if closed then end_report [] Closed attempts else
  match script with
  | [] => end_report [] Dialling attempts
  | ev :: rest =>
      let on_exception (attempts : nat) :=
        if closed_in_handler ev then end_report [ActDial] Closed attempts
        else
          let attempts := S attempts in
          if exceeds attempts max_reconnect_attempts
          then end_report [ActDial] GaveUp attempts
          else if sleep_cancelled ev
          then end_report [ActDial; ActSleep] Cancelled attempts
          else then_report [ActDial; ActSleep]
                 (_ws_connect_loop max_reconnect_attempts rest (closed_at_head ev) attempts) in
      match dial ev with
      | DialFailed => on_exception attempts
      | DialCancelled => end_report [ActDial] Cancelled attempts
      | Connected ListenReturned =>
          then_report [ActDial]
            (_ws_connect_loop max_reconnect_attempts rest (closed_at_head ev) 0)
      | Connected ListenFailed => on_exception 0
      | Connected ListenCancelled => end_report [ActDial] Cancelled 0
      end
  end.

End adapter_utils.

(** ** More notions used by the statements *)

(** The [platform] field of [message_info], [None] when there is none. *)
Definition info_platform_of (E : envelope) : pyval :=
  match E !! "message_info" with
  | Some (PDict info) => dict_get info "platform" PNone
  | _ => PNone
  end.

(** The predicate that answers [False]. *)
Definition never : Predicate := λ _, Ok (PBool false).

(** A turn of the reconnect loop where the dial fails and nothing else
    happens, and one where the connection is made and then lost. *)
Definition plain_failure : dial_event := {|
  dial := DialFailed;
  closed_in_handler := false;
  sleep_cancelled := false;
  closed_at_head := false;
|}.

Definition lost_connection : dial_event := {|
  dial := Connected ListenFailed;
  closed_in_handler := false;
  sleep_cancelled := false;
  closed_at_head := false;
|}.

(** ** Callables and runtimes used as examples *)

Section examples.

(** How a callable records what it does in the world. *)
Variable emit : string → W → W.

Definition tracing_layer (label : string)
  : (envelope → M envelope) * (pyval → M pyval) :=
  (λ msg w, (Ok msg, emit (label +:+ "_before") w),
   λ r w, (Ok r, emit (label +:+ "_after") w)).

Definition tracing_middleware (label : string) : Middleware :=
  onion_middleware (tracing_layer label).1 (tracing_layer label).2.

Definition tracing_handler (label : string) : MessageHandler := {|
  handler_call := λ msg w, (Ok (PDict msg), emit label w);
  handler_display := label;
  looks_like_method := false;
|}.

Definition failing_handler (label : string) (e : exn) : MessageHandler := {|
  handler_call := λ msg w, (Raise e, emit label w);
  handler_display := label;
  looks_like_method := false;
|}.

Definition always : Predicate := λ _, Ok (PBool true).

Definition failing_error_hook (e : exn) : ErrorHook :=
  λ _ _, atomic (λ w, (Raise e, w)).

Definition failing_hook (label : string) (e : exn) : Hook :=
  λ _, atomic (λ w, (Raise e, emit label w)).

Definition recording_hook (label : string) : Hook :=
  λ _, atomic (λ w, (Ok (), emit label w)).

Definition recording_error_hook (label : string) : ErrorHook :=
  λ _ _, atomic (λ w, (Ok (), emit label w)).

(** A hook that is suspended between two things it records. *)
Definition slow_hook (label : string) : Hook :=
  λ _, Running (emit (label +:+ "_begin"))
         (λ _, Running (emit (label +:+ "_end")) (λ _, Finished (Ok ()))).

Definition recording_adapter (p : string) : AdapterBase := {|
  platform := p;
  _send_platform_message := λ _ w, (Ok (), emit "sent" w);
|}.

Definition env_text : envelope :=
  {[ "message_segment" := PDict {[ "type" := PStr "text" ]} ]}.

(** A runtime with one catch-all route whose handler raises, and an
    error-hook that records its call. *)
Definition rt_recording_error_hook : MessageRuntime :=
  register_error_hook (recording_error_hook "error_hook")
    (snd (add_route always (failing_handler "handler" (ValueError "boom")) None
            MtNone None MessageRuntime_init)).

(** A runtime with the middlewares [m1] and [m2], registered in that
    order, around a catch-all route. *)
Definition rt_two_middlewares : MessageRuntime :=
  snd (add_route always (tracing_handler "handler") None MtNone None
         (register_middleware (tracing_middleware "m2")
            (register_middleware (tracing_middleware "m1") MessageRuntime_init))).

(** A runtime with a before-hook that raises, an error-hook, and a
    catch-all route. *)
Definition rt_failing_before_hook : MessageRuntime :=
  register_before_hook (failing_hook "before" (UserException "before failed"))
    (register_error_hook (recording_error_hook "error_hook")
       (snd (add_route always (tracing_handler "handler") None MtNone None
               MessageRuntime_init))).

(** A runtime with one catch-all route whose handler raises, and an
    error-hook that raises too. *)
Definition rt_failing_error_hook : MessageRuntime :=
  register_error_hook (failing_error_hook (UserException "hook failed"))
    (snd (add_route always (failing_handler "handler" (ValueError "boom")) None
            MtNone None MessageRuntime_init)).

(** A runtime where one route is registered for the empty type string
    and one with no type at all, and an envelope whose segment type is
    the empty string. *)
Definition rt_empty_type : MessageRuntime :=
  snd (add_route always (tracing_handler "generic") None MtNone None
    (snd (add_route always (tracing_handler "explicit") None (MtStr EmptyString) None
            MessageRuntime_init))).

Definition env_empty_type : envelope :=
  {[ "message_segment" := PDict {[ "type" := PStr EmptyString ]} ]}.

(** A runtime where ["text"] (resp. ["image"]) is owned by [handler1]. *)
Definition rt_text : MessageRuntime :=
  snd (add_route always (tracing_handler "handler1") (Some "handler1")
         (MtStr "text") None MessageRuntime_init).

Definition rt_image : MessageRuntime :=
  snd (add_route always (tracing_handler "handler1") (Some "handler1")
         (MtStr "image") None MessageRuntime_init).

(** A runtime with two catch-all routes, the first of which never fires. *)
Definition rt_never_then_always : MessageRuntime :=
  snd (add_route always (tracing_handler "second") None MtNone None
    (snd (add_route never (tracing_handler "first") None MtNone None
            MessageRuntime_init))).

(** A runtime with one route, registered for an empty list of types. *)
Definition rt_empty_type_list : MessageRuntime :=
  snd (add_route always (tracing_handler "handler") None (MtList []) None
         MessageRuntime_init).

(** A runtime with one catch-all route whose handler is cancelled, and an
    error-hook that records its call. *)
Definition rt_cancelled : MessageRuntime :=
  register_error_hook (recording_error_hook "error_hook")
    (snd (add_route always (failing_handler "handler" (BaseOnly "cancelled")) None
            MtNone None MessageRuntime_init)).

(** A runtime where ["text"] is handled and everything else falls to a
    catch-all route whose handler raises. *)
Definition rt_text_or_fail : MessageRuntime :=
  snd (add_route always (failing_handler "fallback" (ValueError "boom")) None
         MtNone None rt_text).

(** A method [on_text(self, message)], which cannot be called without its
    [self], and what it does once bound to the instance [i]. *)
Definition on_text : MessageHandler := {|
  handler_call := λ _ w,
    (Raise (TypeError "on_text() missing 1 required positional argument: 'message'"), w);
  handler_display := "on_text";
  looks_like_method := true;
|}.

Definition on_text_of (i : nat) : envelope → M pyval :=
  λ _ w, (Ok (PInt (Z.of_nat i)), emit "on_text" w).

(** A core handler that records its call, and one that fails on every
    envelope. *)
Definition recording_core_handler : pyval → M unit :=
  λ _ w, (Ok (), emit "core" w).

Definition failing_core_handler : pyval → M unit :=
  λ _ w, (Raise (ValueError "boom"), emit "core" w).

Definition cancelled_core_handler : pyval → M unit :=
  λ _ w, (Raise (BaseOnly "cancelled"), emit "core" w).

End examples.

(** ** Properties *)

(** *** Segment type extraction *)

Lemma extract_segment_type_eq (E : envelope) :
  _extract_segment_type E =
  segment_type_of (if truthy (dict_get E "message_segment" PNone)
                   then dict_get E "message_segment" PNone
                   else dict_get E "message_chain" PNone).
Proof.
  unfold _extract_segment_type, py_or.
  destruct (if truthy _ then _ else _) as [| | | |[|[] ?]| |]; reflexivity.
Qed.

(** *** The registry invariant *)

Lemma in_bucket_index_route route keys index k r :
  in_bucket (index_route route keys index) k r ↔
  in_bucket index k r ∨ (r = route ∧ k ∈ keys).
Proof.
  unfold index_route. revert index.
  induction keys as [|k0 keys IH]; intros index; simpl.
  - rewrite elem_of_nil. tauto.
  - rewrite IH, elem_of_cons. unfold in_bucket.
    destruct (decide (k = k0)) as [->|Hne].
    + rewrite lookup_insert_eq. split.
      * intros [(b & Hb & Hr)|[-> Hk]]; [|tauto].
        injection Hb as <-. apply elem_of_app in Hr as [Hr|Hr].
        -- left. destruct (index !! k0) as [old|]; simpl in Hr.
           ++ by exists old.
           ++ by apply elem_of_nil in Hr.
        -- apply list_elem_of_singleton in Hr. tauto.
      * intros [(b & Hb & Hr)|[-> _]].
        -- left. eexists. split; [done|]. rewrite Hb. simpl.
           apply elem_of_app. by left.
        -- left. eexists. split; [done|].
           apply elem_of_app. right. by apply list_elem_of_singleton.
    + rewrite lookup_insert_ne by done. split.
      * intros [?|[-> Hk]]; tauto.
      * intros [?|[-> [?|?]]]; [tauto|done|tauto].
Qed.

Lemma registry_ok_init : registry_ok MessageRuntime_init.
Proof.
  split; simpl.
  - intros r Hr. by apply elem_of_nil in Hr.
  - intros t r (b & Hb & _). by rewrite lookup_empty in Hb.
  - intros t r Hr. by apply elem_of_nil in Hr.
  - intros e r (b & Hb & _). by rewrite lookup_empty in Hb.
  - intros e r Hr. by apply elem_of_nil in Hr.
Qed.

Lemma registry_ok_same_routes rt rt' :
  _routes rt' = _routes rt →
  _type_routes rt' = _type_routes rt →
  _event_routes rt' = _event_routes rt →
  registry_ok rt → registry_ok rt'.
Proof.
  intros Hr Ht He [H1 H2 H3 H4 H5].
  split; rewrite ?Hr, ?Ht, ?He; assumption.
Qed.

Lemma holds_type_default route t :
  holds_type route t ↔ t ∈ default [] (message_types route).
Proof.
  unfold holds_type. destruct (message_types route) as [types|]; simpl.
  - split; [intros (? & [= <-] & ?); done | eauto].
  - rewrite elem_of_nil. split; [intros (? & [=] & _) | done].
Qed.

Lemma holds_event_default route e :
  holds_event route e ↔ e ∈ default [] (event_types route).
Proof.
  unfold holds_event. destruct (event_types route) as [events|]; simpl.
  - split; [intros (? & [= <-] & ?); done | eauto].
  - rewrite elem_of_nil. split; [intros (? & [=] & _) | done].
Qed.

Lemma registry_ok_insert_route p h n single types events rt :
  registry_ok rt →
  registry_ok (insert_route p h n single types events rt).
Proof.
  intros [H1 H2 H3 H4 H5].
  set (route := {| route_id := length (_routes rt); predicate := p; handler := h;
                   name := n; message_type := single; message_types := types;
                   event_types := set_of_list <$> events |}).
  assert (Hin : ∀ r, r ∈ _routes rt ++ [route] ↔ r ∈ _routes rt ∨ r = route).
  { intros r. rewrite elem_of_app, list_elem_of_singleton. tauto. }
  split; unfold insert_route; fold route; simpl.
  - intros r [Hr| ->]%Hin.
    + rewrite lookup_app_l; [by apply H1|].
      eapply lookup_lt_Some. by apply H1.
    + simpl. by rewrite list_lookup_middle.
  - intros t r [Hb|[-> Ht]]%in_bucket_index_route.
    + destruct (H2 _ _ Hb). rewrite Hin. tauto.
    + rewrite Hin. split; [tauto|]. by apply holds_type_default.
  - intros t r [Hr| ->]%Hin Ht; apply in_bucket_index_route.
    + left. by apply H3.
    + right. split; [done|]. by apply holds_type_default in Ht.
  - intros e r [Hb|[-> He]]%in_bucket_index_route.
    + destruct (H4 _ _ Hb). rewrite Hin. tauto.
    + rewrite Hin. split; [tauto|]. by apply holds_event_default.
  - intros e r [Hr| ->]%Hin He; apply in_bucket_index_route.
    + left. by apply H5.
    + right. split; [done|]. by apply holds_event_default in He.
Qed.

(** What a call of [add_route] can leave behind: the runtime as it was, the
    runtime with more owners recorded, or that runtime with the new route. *)
Lemma add_route_cases p h n mt events rt :
  let '(o, rt') := add_route p h n mt events rt in
  (∃ e, o = Raise e ∧ rt' = rt) ∨
  (∃ e owners, o = Raise e ∧ rt' = set_owners owners rt) ∨
  (∃ owners single types,
     o = Ok () ∧
     rt' = insert_route p h n single types events (set_owners owners rt)).
Proof.
  unfold add_route.
  destruct (message_types_of mt) as [[types single]|e]; [|left; eauto].
  destruct (match types with Some _ => _ | None => _ end) as [[[]|e] owners].
  - right; right. eauto.
  - right; left. eauto.
Qed.

Lemma registry_ok_add_route p h n mt events rt :
  registry_ok rt → registry_ok (snd (add_route p h n mt events rt)).
Proof.
  intros Hok. pose proof (add_route_cases p h n mt events rt) as Hc.
  destruct (add_route p h n mt events rt) as [o rt']. simpl.
  destruct Hc as [(e & _ & ->)|[(e & owners & _ & ->)|(owners & single & types & _ & ->)]].
  - done.
  - by apply (registry_ok_same_routes rt).
  - apply registry_ok_insert_route. by apply (registry_ok_same_routes rt).
Qed.

Lemma reachable_registry_ok rt : reachable rt → registry_ok rt.
Proof.
  induction 1 as [|p h n mt events rt _ IH|hook rt _ IH|hook rt _ IH|hook rt _ IH
                  |mw rt _ IH|bh rt _ IH].
  - apply registry_ok_init.
  - by apply registry_ok_add_route.
  - by apply (registry_ok_same_routes rt).
  - by apply (registry_ok_same_routes rt).
  - by apply (registry_ok_same_routes rt).
  - by apply (registry_ok_same_routes rt).
  - by apply (registry_ok_same_routes rt).
Qed.

Lemma registry_ok_same_id rt a b :
  registry_ok rt → a ∈ _routes rt → b ∈ _routes rt →
  route_id a = route_id b → a = b.
Proof.
  intros [H1 _ _ _ _] Ha Hb Hid.
  apply H1 in Ha. apply H1 in Hb. rewrite Hid in Ha. congruence.
Qed.

(** *** The matcher *)

Lemma truthy_PStr s : truthy (PStr s) = true ↔ s ≠ EmptyString.
Proof.
  simpl. destruct (String.eqb_spec s EmptyString); simpl; split; congruence.
Qed.

Lemma bucket_for_elem key index bucket c :
  bucket_for key index = Ok bucket →
  c ∈ bucket ↔ ∃ s, key = PStr s ∧ s ≠ EmptyString ∧ in_bucket index s c.
Proof.
  unfold bucket_for. destruct (truthy key) eqn:Hk.
  - destruct key as [| | |s| | |]; simpl.
    + discriminate.
    + intros [= <-]. rewrite elem_of_nil. split; [done|]. by intros (? & [=] & _).
    + intros [= <-]. rewrite elem_of_nil. split; [done|]. by intros (? & [=] & _).
    + intros [= <-]. apply truthy_PStr in Hk. unfold in_bucket.
      destruct (index !! s) as [b|] eqn:Hb; simpl.
      * split.
        -- intros Hc. exists s. eauto.
        -- intros (s' & [= <-] & _ & b' & Hb' & Hc). congruence.
      * rewrite elem_of_nil.
        split; [done|]. intros (s' & [= <-] & _ & b' & Hb' & _). congruence.
    + discriminate.
    + destruct (foldr _ _ l) as [part|]; [discriminate|].
      intros [= <-]. rewrite elem_of_nil. split; [done|]. by intros (? & [=] & _).
    + discriminate.
  - intros [= <-]. rewrite elem_of_nil. split; [done|].
    intros (s' & -> & Hs & _). apply truthy_PStr in Hs. congruence.
Qed.

Lemma priority_candidates_elem rt message cands c :
  registry_ok rt →
  priority_candidates rt message = Ok cands →
  c ∈ cands ↔ priority_for rt message c.
Proof.
  intros Hok. unfold priority_candidates, priority_for.
  destruct (event_type_of message) as [ev|e] eqn:Hev; simpl; [|discriminate].
  destruct (bucket_for ev (_event_routes rt)) as [be|e] eqn:Hbe; simpl; [|discriminate].
  destruct (bucket_for (_extract_segment_type message) (_type_routes rt))
    as [bt|e] eqn:Hbt; simpl; [|discriminate].
  intros [= <-]. rewrite elem_of_app.
  rewrite (bucket_for_elem _ _ _ c Hbe), (bucket_for_elem _ _ _ c Hbt).
  split.
  - intros [(s & -> & Hs & Hin)|(s & Ht & Hs & Hin)].
    + destruct (event_index_sound _ Hok _ _ Hin). split; [done|]. right. eauto.
    + destruct (type_index_sound _ Hok _ _ Hin). split; [done|]. left. eauto.
  - intros [Hc [(t & Ht & Hs & Hh)|(e & [= ->] & Hs & Hh)]].
    + right. exists t. split_and!; [done..|]. by apply (type_index_complete _ Hok).
    + left. exists e. split_and!; [done..|]. by apply (event_index_complete _ Hok).
Qed.

Lemma priority_for_not_generic rt message c :
  priority_for rt message c → is_generic c = false.
Proof.
  unfold is_generic.
  intros [_ [(t & _ & _ & types & -> & _)|(e & _ & _ & events & He & _)]].
  - done.
  - rewrite He. by destruct (message_types c).
Qed.

Lemma scan_spec (U : list MessageRoute) message candidates seen :
  (∀ a b, a ∈ U → b ∈ U → route_id a = route_id b → a = b) →
  (∀ c, c ∈ candidates → c ∈ U) →
  (∀ c, c ∈ U → route_id c ∈ seen → yields_falsy message c) →
  match scan message candidates seen with
  | Ok (Some r, _) => r ∈ candidates ∧ yields_truthy message r
  | Ok (None, seen') =>
      (∀ c, c ∈ candidates → yields_falsy message c) ∧
      (∀ c, c ∈ U → route_id c ∈ seen' → yields_falsy message c)
  | Raise e => ∃ c, c ∈ candidates ∧ predicate c message = Raise e
  end.
Proof.
  intros Hinj. revert seen.
  induction candidates as [|route rest IH]; intros seen HU Hseen; simpl.
  - split; [|done]. intros c Hc. by apply elem_of_nil in Hc.
  - assert (HrU : route ∈ U) by (apply HU; left).
    assert (HrestU : ∀ c, c ∈ rest → c ∈ U) by (intros c Hc; apply HU; by right).
    destruct (decide (route_id route ∈ seen)) as [Hin|Hnin].
    + specialize (IH seen HrestU Hseen).
      destruct (scan message rest seen) as [[[r|] seen']|e].
      * destruct IH. split; [by right|done].
      * destruct IH as [Hall Hs']. split; [|done].
        intros c [->|Hc]%elem_of_cons; [by apply Hseen|by apply Hall].
      * destruct IH as (c & Hc & He). exists c. split; [by right|done].
    + destruct (predicate route message) as [v|e] eqn:Hp.
      * destruct (truthy v) eqn:Hv.
        -- split; [left|]. by exists v.
        -- assert (Hseen' : ∀ c, c ∈ U →
                     route_id c ∈ ({[route_id route]} ∪ seen : gset nat) →
                     yields_falsy message c).
           { intros c Hc [Hid|Hs]%elem_of_union.
             - apply elem_of_singleton in Hid.
               rewrite (Hinj c route Hc HrU Hid). by exists v.
             - by apply Hseen. }
           specialize (IH _ HrestU Hseen').
           destruct (scan message rest _) as [[[r|] seen']|e].
           ++ destruct IH. split; [by right|done].
           ++ destruct IH as [Hall Hs']. split; [|done].
              intros c [->|Hc]%elem_of_cons; [by exists v|by apply Hall].
           ++ destruct IH as (c & Hc & He). exists c. split; [by right|done].
      * exists route. split; [left|done].
Qed.

Lemma yields_not_both message r :
  yields_truthy message r → yields_falsy message r → False.
Proof. intros (v & Hv & Ht) (v' & Hv' & Hf). congruence. Qed.

(** C1 (amended). For every runtime built by registrations and every
    envelope [E] for which the candidate lists can be built: if a route
    registered under the non-empty segment type of [E], or under its
    non-empty event type, has a predicate that yields truthy on [E], then
    [_match_route] returns neither a generic route nor nothing: it returns
    a route registered under that type or event type whose predicate
    yielded truthy, or it propagates the exception raised by the predicate
    of such a route.  In every case a generic route is returned only after
    the predicate of every priority candidate has yielded falsy. *)
Theorem match_route_priority_shadows_generic rt E cands :
  reachable rt →
  priority_candidates rt E = Ok cands →
  (∀ r, priority_for rt E r → yields_truthy E r →
     match _match_route rt E with
     | Ok (Some r') =>
         priority_for rt E r' ∧ is_generic r' = false ∧ yields_truthy E r'
     | Ok None => False
     | Raise e => ∃ c, priority_for rt E c ∧ predicate c E = Raise e
     end) ∧
  (∀ g, _match_route rt E = Ok (Some g) → is_generic g = true →
     ∀ c, priority_for rt E c → yields_falsy E c).
Proof.
  intros Hok%reachable_registry_ok Hcands.
  pose proof (λ c, priority_candidates_elem rt E cands c Hok Hcands) as Hel.
  assert (Hscan := scan_spec (_routes rt) E cands ∅
                     (λ a b, registry_ok_same_id rt a b Hok)).
  unfold _match_route. rewrite Hcands. simpl.
  destruct (scan E cands ∅) as [[[r'|] seen']|e]; simpl.
  - destruct Hscan as [Hr' Ht].
    { intros c Hc. by apply Hel in Hc as [? _]. }
    { intros c _ Hc. by apply elem_of_empty in Hc. }
    apply Hel in Hr'. split.
    + intros _ _ _. split_and!; [done| |done].
      by apply (priority_for_not_generic rt E).
    + intros g [= <-] Hg.
      rewrite (priority_for_not_generic rt E r' Hr') in Hg. discriminate.
  - destruct Hscan as [Hall _].
    { intros c Hc. by apply Hel in Hc as [? _]. }
    { intros c _ Hc. by apply elem_of_empty in Hc. }
    split.
    + intros r Hr Ht. apply Hel in Hr.
      destruct (yields_not_both E r Ht (Hall r Hr)).
    + intros g _ _ c Hc. apply Hall. by apply Hel.
  - destruct Hscan as (c & Hc & He).
    { intros c Hc. by apply Hel in Hc as [? _]. }
    { intros c _ Hc. by apply elem_of_empty in Hc. }
    split.
    + intros _ _ _. exists c. split; [by apply Hel|done].
    + intros g [=].
Qed.

(** *** Registration *)

Lemma set_owners_id rt : set_owners (_explicit_type_handlers rt) rt = rt.
Proof. by destruct rt. Qed.

Lemma claim_types_raise hn types owners e owners' :
  claim_types hn types owners = (Raise e, owners') →
  ∃ t existing, t ∈ types ∧ owners' !! t = Some existing ∧
                e = duplicate_type_error t existing hn.
Proof.
  revert owners. induction types as [|k rest IH]; intros owners; simpl.
  - discriminate.
  - destruct (owners !! k) as [existing|] eqn:Hk.
    + intros [= <- <-]. exists k, existing. split_and!; [left|done|done].
    + intros (t & ex & Ht & Hl & He)%IH. exists t, ex. split_and!; [by right|done|done].
Qed.

Lemma claim_types_ok hn types owners owners' :
  claim_types hn types owners = (Ok (), owners') →
  ∀ t, t ∈ types → owners !! t = None.
Proof.
  revert owners. induction types as [|k rest IH]; intros owners; simpl.
  - intros _ t Ht. by apply elem_of_nil in Ht.
  - destruct (owners !! k) as [existing|] eqn:Hk; [discriminate|].
    intros Hrest t [->|Ht]%elem_of_cons; [done|].
    specialize (IH _ Hrest t Ht).
    destruct (decide (k = t)) as [->|Hne].
    + by rewrite lookup_insert_eq in IH.
    + by rewrite lookup_insert_ne in IH.
Qed.


Lemma add_route_none p h n events rt :
  add_route p h n MtNone events rt =
  (Ok (), insert_route p h n None None events rt).
Proof. unfold add_route. simpl. by rewrite set_owners_id. Qed.

Lemma claim_types_mono hn types owners res owners' t v :
  claim_types hn types owners = (res, owners') →
  owners !! t = Some v → owners' !! t = Some v.
Proof.
  revert owners. induction types as [|k rest IH]; intros owners; simpl.
  - by intros [= _ <-].
  - destruct (owners !! k) as [existing|] eqn:Hk.
    + by intros [= _ <-].
    + intros Hc Ht. apply (IH _ Hc).
      rewrite lookup_insert_ne; [done|]. intros ->. congruence.
Qed.

Lemma claim_types_recorded hn types owners owners' :
  claim_types hn types owners = (Ok (), owners') →
  ∀ t, t ∈ types → owners' !! t = Some hn.
Proof.
  revert owners. induction types as [|k rest IH]; intros owners; simpl.
  - intros _ t Ht. by apply elem_of_nil in Ht.
  - destruct (owners !! k) as [existing|] eqn:Hk; [discriminate|].
    intros Hc t [->|Ht]%elem_of_cons.
    + apply (claim_types_mono _ _ _ _ _ _ _ Hc). apply lookup_insert_eq.
    + by apply (IH _ Hc).
Qed.



(** A collision on a registration with a single type leaves the runtime
    as it was. *)
Lemma add_route_str_collision p h n s events rt existing :
  _explicit_type_handlers rt !! s = Some existing →
  add_route p h n (MtStr s) events rt =
  (Raise (duplicate_type_error s existing (handler_name_of n h)), rt).
Proof.
  intros Hs. unfold add_route. simpl. rewrite Hs. by rewrite set_owners_id.
Qed.

(** What the duplicate-registration loop leaves behind when it stops: the
    types met before the colliding one are recorded for the new handler. *)
Lemma claim_types_partial hn before t after owners existing :
  NoDup before → t ∉ before →
  (∀ x, x ∈ before → owners !! x = None) →
  owners !! t = Some existing →
  claim_types hn (before ++ t :: after) owners =
  (Raise (duplicate_type_error t existing hn),
   foldl (λ o x, <[x := hn]> o) owners before).
Proof.
  revert owners. induction before as [|x before IH]; intros owners Hnd Ht Hfree Hown.
  - simpl. by rewrite Hown.
  - apply NoDup_cons in Hnd as [Hx Hnd]. apply not_elem_of_cons in Ht as [Htx Ht].
    simpl. rewrite (Hfree x) by left. apply IH; [done|done| |].
    + intros y Hy. rewrite lookup_insert_ne by (by intros ->). apply Hfree. by right.
    + by rewrite lookup_insert_ne.
Qed.

(** A call that raises appends no route and touches neither index; only
    the owner map can differ. *)
Lemma add_route_raise_frame p h n mt events rt e rt' :
  add_route p h n mt events rt = (Raise e, rt') →
  ∃ owners, rt' = set_owners owners rt.
Proof.
  intros Heq. pose proof (add_route_cases p h n mt events rt) as Hc.
  rewrite Heq in Hc.
  destruct Hc as [(? & _ & ->)|[(? & owners & _ & ->)|(? & ? & ? & [=] & _)]].
  - exists (_explicit_type_handlers rt). by rewrite set_owners_id.
  - by exists owners.
Qed.

Lemma set_of_list_two a b :
  a ≠ b → set_of_list [a; b] = [a; b] ∨ set_of_list [a; b] = [b; a].
Proof using set_of_list_perm.
  intros Hne. pose proof (set_of_list_perm [a; b]) as Hp.
  assert (remove_dups [a; b] = [a; b]) as Hr.
  { cbn. destruct (decide_rel elem_of a [b]) as [Hin|_]; [|done].
    by apply list_elem_of_singleton in Hin. }
  rewrite Hr in Hp. symmetry in Hp.
  by apply Permutation.Permutation_length_2_inv in Hp.
Qed.

Lemma elem_of_set_of_list l x : x ∈ set_of_list l ↔ x ∈ l.
Proof using set_of_list_perm. rewrite (set_of_list_perm l). apply elem_of_remove_dups. Qed.

Lemma NoDup_set_of_list l : NoDup (set_of_list l).
Proof using set_of_list_perm. rewrite (set_of_list_perm l). apply NoDup_remove_dups. Qed.

(** C2 (the code departs from the claim). A registration with the types
    ["image"] and ["text"] on a runtime where one of the two is already
    owned raises the duplicate-registration error; whatever order the set
    is iterated in, on one of the two runtimes the type met before the
    colliding one stays recorded in [_explicit_type_handlers] under the
    name of the handler whose registration failed. *)
Theorem add_route_collision_keeps_earlier_claims (emit : string → W → W) :
  let call := add_route always (tracing_handler emit "handler2") (Some "handler2")
                (MtList ["image"; "text"]) None in
  (∃ msg, fst (call (rt_text emit)) = Raise (ValueError msg)) ∧
  (∃ msg, fst (call (rt_image emit)) = Raise (ValueError msg)) ∧
  ((_explicit_type_handlers (rt_text emit) !! "image" = None ∧
    _explicit_type_handlers (snd (call (rt_text emit))) !! "image" = Some "handler2") ∨
   (_explicit_type_handlers (rt_image emit) !! "text" = None ∧
    _explicit_type_handlers (snd (call (rt_image emit))) !! "text" = Some "handler2")).
Proof using set_of_list_perm.
  intros call. subst call.
  assert ("image" ≠ "text") as Hne by discriminate.
  unfold add_route, message_types_of.
  destruct (set_of_list_two "image" "text" Hne) as [-> | ->].
  - split_and!; [eexists; reflexivity..|]. left. split; reflexivity.
  - split_and!; [eexists; reflexivity..|]. right. split; reflexivity.
Qed.


(** *** Hooks and dispatch *)

Lemma finish_may_raise {A} (t : task A) w e w' :
  finish t w = (Raise e, w') → may_raise t e.
Proof.
  revert w. induction t as [o|effect next IH]; intros w; simpl.
  - by intros [= -> _].
  - intros H. exists w. by apply (IH w (effect w)).
Qed.

Lemma finish_always_raises {A} (t : task A) w :
  always_raises t → ∃ e w', finish t w = (Raise e, w').
Proof.
  revert w. induction t as [[a|e]|effect next IH]; intros w; simpl.
  - done.
  - eauto.
  - intros H. apply IH, H.
Qed.

Lemma evolves_refl t : evolves t t.
Proof. by split. Qed.

Lemma evolves_step t effect next w :
  evolves t (Running effect next) → evolves t (next w).
Proof.
  intros [Hr Ha]. split.
  - intros e He. apply Hr. by exists w.
  - intros Ht. apply (Ha Ht w).
Qed.

(** What a step of the loop keeps: the tasks are what is left of the
    tasks [gather] was given, and the exception recorded was raised by one
    of these. *)
Lemma resume_evolves tasks ts failed w i ts' failed' w' :
  Forall2 evolves tasks ts →
  (∀ e, failed = Some e → ∃ t, t ∈ tasks ∧ may_raise t e) →
  resume i (ts, failed, w) = (ts', failed', w') →
  Forall2 evolves tasks ts' ∧
  (∀ e, failed' = Some e → ∃ t, t ∈ tasks ∧ may_raise t e).
Proof.
  intros Hev Hf. unfold resume.
  destruct (ts !! i) as [[o|effect next]|] eqn:Hi; try (by intros [= <- <- <-]).
  intros [= <- <- <-].
  destruct (Forall2_lookup_r _ _ _ _ _ Hev Hi) as (t & Ht & Htev).
  split.
  - rewrite <- (list_insert_id tasks i t Ht). apply Forall2_insert; [done|].
    by apply (evolves_step t effect next w).
  - intros e. destruct failed as [e0|]; [apply Hf|].
    destruct (next w) as [[[]|e1]|effect' next'] eqn:Hn; try done.
    intros [= <-]. exists t. split; [by eapply list_elem_of_lookup_2|].
    apply Htev. exists w. by rewrite Hn.
Qed.

Lemma schedule_evolves tasks sched ts failed w ts' failed' w' :
  Forall2 evolves tasks ts →
  (∀ e, failed = Some e → ∃ t, t ∈ tasks ∧ may_raise t e) →
  foldl (λ st i, resume i st) (ts, failed, w) sched = (ts', failed', w') →
  Forall2 evolves tasks ts' ∧
  (∀ e, failed' = Some e → ∃ t, t ∈ tasks ∧ may_raise t e).
Proof.
  revert ts failed w.
  induction sched as [|i sched IH]; intros ts failed w Hev Hf; cbn [foldl].
  - by intros [= <- <- <-].
  - destruct (resume i (ts, failed, w)) as [[ts0 failed0] w0] eqn:Hr.
    destruct (resume_evolves tasks ts failed w i ts0 failed0 w0 Hev Hf Hr) as [Hev0 Hf0].
    by apply IH.
Qed.

Lemma schedule_runs_all sched ts failed w ts' failed' w1 w' :
  foldl (λ st i, resume i st) (ts, failed, w) sched = (ts', failed', w1) →
  runs_all ts' w1 w' → runs_all ts w w'.
Proof.
  revert ts failed w. induction sched as [|i sched IH]; intros ts failed w; cbn [foldl].
  - by intros [= <- <- <-].
  - destruct (resume i (ts, failed, w)) as [[ts0 failed0] w0] eqn:Hr.
    intros Hrest Hrun. specialize (IH _ _ _ Hrest Hrun).
    unfold resume in Hr.
    destruct (ts !! i) as [[o|effect next]|] eqn:Hi;
      try (by injection Hr as <- <- <-).
    injection Hr as <- <- <-. by eapply runs_all_step.
Qed.

Lemma runs_all_cons_finished ts w w' :
  runs_all ts w w' → runs_all (Finished (Ok ()) :: ts) w w'.
Proof.
  induction 1 as [ts w Hall|ts i effect next w w' Hi _ IH].
  - apply runs_all_done. by constructor.
  - by apply (runs_all_step _ (S i) effect next).
Qed.

Lemma finish_runs_all t w w1 rest w' :
  finish t w = (Ok (), w1) →
  runs_all (Finished (Ok ()) :: rest) w1 w' → runs_all (t :: rest) w w'.
Proof.
  revert w. induction t as [o|effect next IH]; intros w; simpl.
  - by intros [= -> ->].
  - intros Hf Hrun. apply (runs_all_step _ 0 effect next); [done|].
    by apply (IH w (effect w)).
Qed.

Lemma drain_runs_all ts w w' :
  drain ts w = (Ok (), w') → runs_all ts w w'.
Proof.
  revert w. induction ts as [|t rest IH]; intros w; simpl.
  - intros [= <-]. by apply runs_all_done.
  - unfold bind. destruct (finish t w) as [[[]|e] w1] eqn:Hf; [|discriminate].
    intros Hrest. apply (finish_runs_all t w w1); [done|].
    by apply runs_all_cons_finished, IH.
Qed.

Lemma drain_may_raise ts w e w' :
  drain ts w = (Raise e, w') → ∃ t, t ∈ ts ∧ may_raise t e.
Proof.
  revert w. induction ts as [|t rest IH]; intros w; simpl.
  - discriminate.
  - unfold bind. destruct (finish t w) as [[[]|e0] w1] eqn:Hf.
    + intros (t' & Hin & Hr)%IH. exists t'. split; [by right|done].
    + intros [= <- <-]. exists t. split; [left|]. by eapply finish_may_raise.
Qed.

Lemma drain_always_raises ts t w :
  t ∈ ts → always_raises t → ∃ e w', drain ts w = (Raise e, w').
Proof.
  revert w. induction ts as [|t0 rest IH]; intros w Hin Ht; simpl.
  - by apply elem_of_nil in Hin.
  - unfold bind. destruct (finish t0 w) as [[[]|e0] w1] eqn:Hf; [|eauto].
    apply elem_of_cons in Hin as [->|Hin]; [|by apply IH].
    destruct (finish_always_raises t0 w Ht) as (e & w' & Hr). congruence.
Qed.

Lemma evolves_all tasks : Forall2 evolves tasks tasks.
Proof. induction tasks; constructor; [apply evolves_refl|done]. Qed.

Lemma none_failed (tasks : list (task unit)) (e : exn) :
  None = Some e → ∃ t, t ∈ tasks ∧ may_raise t e.
Proof. discriminate. Qed.

(** An exception [gather] propagates was raised by one of its tasks. *)
Lemma gather_may_raise tasks w e w' :
  gather tasks w = (Raise e, w') → ∃ t, t ∈ tasks ∧ may_raise t e.
Proof.
  unfold gather.
  destruct (foldl (λ st i, resume i st) (tasks, None, w) (interleaving w))
    as [[ts failed] w1] eqn:Hs.
  destruct (schedule_evolves tasks _ _ _ _ _ _ _ (evolves_all tasks)
              (none_failed tasks) Hs)
    as [Hev Hf].
  destruct failed as [e0|].
  - intros [= <- <-]. by apply Hf.
  - intros (t' & Hin & Hr)%drain_may_raise.
    apply list_elem_of_lookup in Hin as [i Hi].
    destruct (Forall2_lookup_r _ _ _ _ _ Hev Hi) as (t & Ht & Htev).
    exists t. split; [by eapply list_elem_of_lookup_2|]. by apply Htev.
Qed.

(** When one of its tasks raises in whatever way it is run, [gather]
    propagates an exception. *)
Lemma gather_always_raises tasks t w :
  t ∈ tasks → always_raises t → ∃ e w', gather tasks w = (Raise e, w').
Proof.
  intros Hin Ht. unfold gather.
  destruct (foldl (λ st i, resume i st) (tasks, None, w) (interleaving w))
    as [[ts failed] w1] eqn:Hs.
  destruct (schedule_evolves tasks _ _ _ _ _ _ _ (evolves_all tasks)
              (none_failed tasks) Hs)
    as [Hev _].
  destruct failed as [e0|]; [eauto|].
  apply list_elem_of_lookup in Hin as [i Hi].
  destruct (Forall2_lookup_l _ _ _ _ _ Hev Hi) as (t' & Ht' & Htev).
  apply (drain_always_raises ts t'); [by eapply list_elem_of_lookup_2|].
  by apply Htev.
Qed.

(** When [gather] returns, every one of its tasks has run to its end. *)
Lemma gather_runs_all tasks w w' :
  gather tasks w = (Ok (), w') → runs_all tasks w w'.
Proof.
  unfold gather.
  destruct (foldl (λ st i, resume i st) (tasks, None, w) (interleaving w))
    as [[ts failed] w1] eqn:Hs.
  destruct failed as [e0|]; [discriminate|].
  intros Hd%drain_runs_all. by eapply schedule_runs_all.
Qed.

Lemma gather_never_raises tasks w :
  (∀ t, t ∈ tasks → never_raises t) → ∃ w', gather tasks w = (Ok (), w').
Proof.
  intros Hnever. destruct (gather tasks w) as [[[]|e] w'] eqn:Hg; [eauto|].
  apply gather_may_raise in Hg as (t & Hin & Hr). destruct (Hnever t Hin e Hr).
Qed.

Lemma gather_nil w : gather [] w = (Ok (), w).
Proof.
  unfold gather.
  assert (∀ sched, foldl (λ st i, resume i st) ([], None, w) sched = ([], None, w)) as ->.
  { intros sched. induction sched as [|i sched IH]; [done|]. simpl. by rewrite IH. }
  done.
Qed.

Lemma run_hooks_gather hooks E w :
  _run_hooks hooks E w = gather ((λ hook, hook E) <$> hooks) w.
Proof. destruct hooks; [by rewrite gather_nil|done]. Qed.

Lemma run_error_hooks_gather rt E exc w :
  _run_error_hooks rt E exc w = gather ((λ hook, hook E exc) <$> _error_hooks rt) w.
Proof.
  unfold _run_error_hooks. destruct (_error_hooks rt); [by rewrite gather_nil|done].
Qed.

(** What a phase of hooks does, whatever order the loop takes: when it
    returns every hook has run to its end; an exception it propagates was
    raised by one of the hooks; and it propagates one when a hook raises
    however it is run. *)
Lemma run_hooks_spec hooks E w :
  match _run_hooks hooks E w with
  | (Ok _, w') => runs_all ((λ hook, hook E) <$> hooks) w w'
  | (Raise e, w') => ∃ hook, hook ∈ hooks ∧ may_raise (hook E) e
  end.
Proof.
  rewrite run_hooks_gather.
  destruct (gather _ w) as [[[]|e] w'] eqn:Hg.
  - by apply gather_runs_all.
  - apply gather_may_raise in Hg as (t & Hin & Hr).
    apply list_elem_of_fmap in Hin as (hook & -> & Hin). eauto.
Qed.

Lemma run_hooks_always_raises hooks hook E w :
  hook ∈ hooks → always_raises (hook E) →
  ∃ e w', _run_hooks hooks E w = (Raise e, w').
Proof.
  intros Hin Hr. rewrite run_hooks_gather.
  apply (gather_always_raises _ (hook E)); [|done].
  apply list_elem_of_fmap. eauto.
Qed.

Lemma run_error_hooks_spec rt E exc w :
  match _run_error_hooks rt E exc w with
  | (Ok _, w') => runs_all ((λ hook, hook E exc) <$> _error_hooks rt) w w'
  | (Raise e, w') => ∃ hook, hook ∈ _error_hooks rt ∧ may_raise (hook E exc) e
  end.
Proof.
  rewrite run_error_hooks_gather.
  destruct (gather _ w) as [[[]|e] w'] eqn:Hg.
  - by apply gather_runs_all.
  - apply gather_may_raise in Hg as (t & Hin & Hr).
    apply list_elem_of_fmap in Hin as (hook & -> & Hin). eauto.
Qed.

Lemma run_error_hooks_always_raises rt hook E exc w :
  hook ∈ _error_hooks rt → always_raises (hook E exc) →
  ∃ e w', _run_error_hooks rt E exc w = (Raise e, w').
Proof.
  intros Hin Hr. rewrite run_error_hooks_gather.
  apply (gather_always_raises _ (hook E exc)); [|done].
  apply list_elem_of_fmap. eauto.
Qed.

Lemma run_error_hooks_never_raises rt E exc w :
  (∀ hook, hook ∈ _error_hooks rt → never_raises (hook E exc)) →
  ∃ w', _run_error_hooks rt E exc w = (Ok (), w').
Proof.
  intros Hnever. rewrite run_error_hooks_gather. apply gather_never_raises.
  intros t (hook & -> & Hin)%list_elem_of_fmap. by apply Hnever.
Qed.

Lemma handle_message_before_raise rt E w e w1 :
  _run_hooks (_before_hooks rt) E w = (Raise e, w1) →
  handle_message rt E w = (Raise e, w1).
Proof. intros H. unfold handle_message, bind. by rewrite H. Qed.

(** The exceptions the [try] body raises come from building the candidate
    lists, from a predicate, or from the middleware chain around the
    handler of the matched route. *)
Lemma dispatch_raise rt E w exc w' :
  dispatch rt E w = (Raise exc, w') →
  (_match_route rt E = Raise exc ∧ w' = w) ∨
  (∃ route, _match_route rt E = Ok (Some route) ∧
            _wrap_with_middlewares rt (handler route) E w = (Raise exc, w')).
Proof.
  unfold dispatch, bind, lift.
  destruct (_match_route rt E) as [[route|]|e].
  - destruct (_wrap_with_middlewares rt (handler route) E w) as [[r|e] w1] eqn:Hc.
    + discriminate.
    + intros [= -> ->]. right. eauto.
  - discriminate.
  - intros [= -> ->]. by left.
Qed.

Lemma dispatch_match_raise rt E w exc :
  _match_route rt E = Raise exc → dispatch rt E w = (Raise exc, w).
Proof. intros H. unfold dispatch, bind, lift. by rewrite H. Qed.

Lemma dispatch_chain_raise rt E w route exc w' :
  _match_route rt E = Ok (Some route) →
  _wrap_with_middlewares rt (handler route) E w = (Raise exc, w') →
  dispatch rt E w = (Raise exc, w').
Proof. intros H Hc. unfold dispatch, bind, lift. by rewrite H, Hc. Qed.

(** An exception that is not an instance of [Exception] passes through
    [handle_message] unwrapped, and no error-hook runs. *)
Lemma handle_message_base_exception rt E w w1 exc w2 :
  _run_hooks (_before_hooks rt) E w = (Ok (), w1) →
  dispatch rt E w1 = (Raise exc, w2) →
  is_Exception exc = false →
  handle_message rt E w = (Raise exc, w2).
Proof.
  intros Hb Hd Hx. unfold handle_message, bind. rewrite Hb.
  unfold try_except. by rewrite Hd, Hx.
Qed.

(** When an error-hook raises, its exception is what [handle_message]
    fails with. *)
Lemma handle_message_error_hook_raise rt E w w1 exc w2 e w3 :
  _run_hooks (_before_hooks rt) E w = (Ok (), w1) →
  dispatch rt E w1 = (Raise exc, w2) →
  is_Exception exc = true →
  _run_error_hooks rt E exc w2 = (Raise e, w3) →
  handle_message rt E w = (Raise e, w3).
Proof.
  intros Hb Hd Hx He. unfold handle_message, bind. rewrite Hb.
  unfold try_except. rewrite Hd, Hx. unfold bind. by rewrite He.
Qed.

(** C3 (amended). When the before-hooks have completed and a predicate, a
    middleware or the matched handler raises an instance of [Exception],
    the registered error-hooks are run, side by side, with the envelope and
    that exception.  When they return, every one of them has run to its
    end, and [handle_message] then fails with a [MessageProcessingError]
    that carries the envelope, the original exception (also as its cause),
    and a text showing the [id] field of the envelope, or [<unknown>] when
    there is none; this is what happens when no error-hook can raise.  When
    an error-hook raises, [handle_message] fails with the exception of an
    error-hook instead, and nothing is wrapped. *)
Theorem handle_message_wraps_failure rt E w w1 exc w2 :
  _run_hooks (_before_hooks rt) E w = (Ok (), w1) →
  dispatch rt E w1 = (Raise exc, w2) →
  is_Exception exc = true →
  let error_tasks := (λ hook, hook E exc) <$> _error_hooks rt in
  let wrapped :=
    MessageProcessingError E exc
      ("处理消息 " +:+ py_str (dict_get E "id" (PStr "<unknown>"))
       +:+ " 时出错: " +:+ exn_str exc)
      (Some exc) in
  match _run_error_hooks rt E exc w2 with
  | (Ok _, w3) =>
      runs_all error_tasks w2 w3 ∧ handle_message rt E w = (Raise wrapped, w3)
  | (Raise e, w3) =>
      (∃ hook, hook ∈ _error_hooks rt ∧ may_raise (hook E exc) e) ∧
      handle_message rt E w = (Raise e, w3)
  end ∧
  ((∀ hook, hook ∈ _error_hooks rt → never_raises (hook E exc)) →
   ∃ w3, runs_all error_tasks w2 w3 ∧ handle_message rt E w = (Raise wrapped, w3)).
Proof.
  intros Hb Hd Hx error_tasks wrapped.
  assert (∀ o w3, _run_error_hooks rt E exc w2 = (o, w3) →
            handle_message rt E w =
            (match o with Ok _ => Raise wrapped | Raise e => Raise e end, w3)) as Hm.
  { intros o w3 He. unfold handle_message, bind. rewrite Hb.
    unfold try_except. rewrite Hd, Hx. unfold bind. rewrite He.
    by destruct o as [[]|e]. }
  pose proof (run_error_hooks_spec rt E exc w2) as Hs.
  split.
  - destruct (_run_error_hooks rt E exc w2) as [[[]|e] w3] eqn:He;
      (split; [exact Hs|by apply (Hm _ _ eq_refl)]).
  - intros Hnever.
    destruct (run_error_hooks_never_raises rt E exc w2 Hnever) as [w3 He].
    rewrite He in Hs. exists w3. split; [exact Hs|by apply (Hm _ _ He)].
Qed.

(** C10. When a before-hook raises, [handle_message] ends with the
    exception the before-hook phase propagates, which was raised by a
    before-hook and is not wrapped, and with the world that phase left,
    whatever the routes, predicates, middlewares, handlers and error-hooks
    of the runtime are: no route is looked for, and neither a middleware, a
    handler nor an error-hook has run.  The phase propagates an exception
    whenever one of the before-hooks raises however it is run, in whatever
    order the loop resumes the hooks, and the exception is one of that
    hook when no other before-hook can raise; it returns, and the rest of
    [handle_message] runs, only when every before-hook has run to its end
    without an exception. *)
Theorem handle_message_before_hook_failure rt E w :
  (∀ e w1,
     _run_hooks (_before_hooks rt) E w = (Raise e, w1) →
     handle_message rt E w = (Raise e, w1) ∧
     ∃ hook, hook ∈ _before_hooks rt ∧ may_raise (hook E) e) ∧
  (∀ hook,
     hook ∈ _before_hooks rt → always_raises (hook E) →
     ∃ e w1,
       _run_hooks (_before_hooks rt) E w = (Raise e, w1) ∧
       handle_message rt E w = (Raise e, w1) ∧
       (∃ hook', hook' ∈ _before_hooks rt ∧ may_raise (hook' E) e) ∧
       ((∀ hook', hook' ∈ _before_hooks rt →
                  (∃ e', may_raise (hook' E) e') → hook' = hook) →
        may_raise (hook E) e)) ∧
  (∀ w1,
     _run_hooks (_before_hooks rt) E w = (Ok (), w1) →
     runs_all ((λ hook, hook E) <$> _before_hooks rt) w w1).
Proof.
  assert (∀ e w1,
            _run_hooks (_before_hooks rt) E w = (Raise e, w1) →
            handle_message rt E w = (Raise e, w1) ∧
            ∃ hook, hook ∈ _before_hooks rt ∧ may_raise (hook E) e) as Hgen.
  { intros e w1 H. split; [by apply handle_message_before_raise|].
    pose proof (run_hooks_spec (_before_hooks rt) E w) as Hs. by rewrite H in Hs. }
  split_and!; [exact Hgen| |].
  - intros hook Hin Hr.
    destruct (run_hooks_always_raises _ hook E w Hin Hr) as (e & w1 & He).
    destruct (Hgen e w1 He) as [Hm (hook' & Hin' & Hr')].
    exists e, w1. split_and!; [done|done|by eauto|].
    intros Honly. by rewrite <- (Honly hook' Hin' (ex_intro _ e Hr')).
  - intros w1 H. pose proof (run_hooks_spec (_before_hooks rt) E w) as Hs.
    by rewrite H in Hs.
Qed.

(** *** The middleware chain *)

(** [register_middleware] appends: the list is in registration order. *)
Lemma register_middlewares_order rt (mws : list Middleware) :
  _middlewares (foldl (λ rt mw, register_middleware mw rt) rt mws) =
  _middlewares rt ++ mws.
Proof.
  revert rt. induction mws as [|mw mws IH]; intros rt; simpl.
  - by rewrite app_nil_r.
  - rewrite IH. simpl. by rewrite <- app_assoc.
Qed.

Lemma wrap_with_middlewares_nested rt h :
  _wrap_with_middlewares rt h =
  foldr (λ (mw : Middleware) (next : MiddlewareCallable), (λ msg, mw msg next))
        (base_handler h) (_middlewares rt).
Proof.
  unfold _wrap_with_middlewares.
  induction (_middlewares rt) as [|mw rest IH]; simpl.
  - done.
  - by rewrite foldl_snoc, IH.
Qed.

Lemma pipeline_app {A} (a b : list (A → M A)) x w :
  pipeline (a ++ b) x w = (y ⇐ pipeline a x; pipeline b y) w.
Proof.
  revert x w. induction a as [|step rest IH]; intros x w; simpl.
  - done.
  - unfold bind. destruct (step x w) as [[x'|e] w1]; [|done].
    by rewrite IH.
Qed.

Lemma onion_chain h (layers : list ((envelope → M envelope) * (pyval → M pyval))) msg w :
  foldr (λ (mw : Middleware) (next : MiddlewareCallable), (λ msg, mw msg next))
        (base_handler h) ((λ layer, onion_middleware layer.1 layer.2) <$> layers) msg w =
  (msg' ⇐ pipeline (fst <$> layers) msg;
   result ⇐ handler_call h msg';
   pipeline (rev (snd <$> layers)) result) w.
Proof.
  revert msg w. induction layers as [|[enter leave] rest IH]; intros msg w.
  - simpl. unfold bind, ret, base_handler.
    by destruct (handler_call h msg w) as [[r|e] w1].
  - rewrite !fmap_cons. cbn [foldr pipeline rev fst snd].
    unfold onion_middleware at 1. unfold bind.
    destruct (enter msg w) as [[msg'|e] w1]; [|done].
    rewrite IH. unfold bind.
    destruct (pipeline (fst <$> rest) msg' w1) as [[m|e] w2]; [|done].
    destruct (handler_call h m w2) as [[r|e] w3]; [|done].
    rewrite pipeline_app. unfold bind.
    destruct (pipeline (rev (snd <$> rest)) r w3) as [[r'|e] w4]; [|done].
    simpl. unfold bind, ret. by destruct (leave r' w4) as [[r''|e] w5].
Qed.

(** C4. The chain built by [_wrap_with_middlewares] nests the middlewares
    with the first registered outermost; for a dispatched envelope that
    matches a route and middlewares written in the onion style, the entry
    steps run in registration order, then the handler, then the exit steps
    in reverse registration order. *)
Theorem middleware_chain_onion rt route E w
    (layers : list ((envelope → M envelope) * (pyval → M pyval))) :
  _match_route rt E = Ok (Some route) →
  _middlewares rt = (λ layer, onion_middleware layer.1 layer.2) <$> layers →
  _wrap_with_middlewares rt (handler route) =
    foldr (λ (mw : Middleware) (next : MiddlewareCallable), (λ msg, mw msg next))
          (base_handler (handler route)) (_middlewares rt) ∧
  dispatch rt E w =
    (msg ⇐ pipeline (fst <$> layers) E;
     result ⇐ handler_call (handler route) msg;
     result' ⇐ pipeline (rev (snd <$> layers)) result;
     ret (Some result')) w.
Proof.
  intros Hm Hl. split; [apply wrap_with_middlewares_nested|].
  unfold dispatch. unfold bind at 1, lift. rewrite Hm.
  unfold bind at 1. rewrite wrap_with_middlewares_nested, Hl, onion_chain.
  unfold bind, ret.
  destruct (pipeline (fst <$> layers) E w) as [[m|e] w1]; [|done].
  destruct (handler_call (handler route) m w1) as [[r|e] w2]; [|done].
  by destruct (pipeline (rev (snd <$> layers)) r w2) as [[r'|e] w3].
Qed.

(** *** Batches *)

Lemma handle_each_spec rt xs acc w :
  handle_each rt xs acc w =
  (rs ⇐ mapM (handle_message rt) xs; ret (acc ++ filter not_none rs)) w.
Proof.
  revert acc w. induction xs as [|x rest IH]; intros acc w; simpl.
  - unfold bind, ret. by rewrite app_nil_r.
  - unfold bind at 1 2 3.
    destruct (handle_message rt x w) as [[resp|e] w1]; [|done].
    rewrite IH. unfold bind, ret.
    destruct (mapM (handle_message rt) rest w1) as [[rs|e] w2]; [|done].
    rewrite filter_cons.
    destruct (decide (not_none resp)) as [Hn|Hn]; unfold not_none in Hn.
    + rewrite Hn. by rewrite <- app_assoc.
    + apply not_false_is_true in Hn. by rewrite Hn.
Qed.

(** C6. [handle_batch] on the empty list returns the empty list; with a
    batch handler set and a non-empty batch it returns what the handler
    yields, [None] being turned into the empty list, and fails as the
    handler fails; with no batch handler it returns the results of
    [handle_message] on each envelope, run one after the other in input
    order, that are not [None]. *)
Theorem handle_batch_spec rt :
  (∀ w, handle_batch rt [] w = (Ok (PList []), w)) ∧
  (∀ bh xs w, _batch_handler rt = Some bh → xs ≠ [] →
     match bh xs w with
     | (Ok PNone, w') => handle_batch rt xs w = (Ok (PList []), w')
     | (Ok (PList ys), w') => handle_batch rt xs w = (Ok (PList ys), w')
     | (Ok _, _) => True
     | (Raise e, w') => handle_batch rt xs w = (Raise e, w')
     end) ∧
  (∀ xs w, _batch_handler rt = None →
     handle_batch rt xs w =
     (rs ⇐ mapM (handle_message rt) xs; ret (PList (filter not_none rs))) w).
Proof.
  split_and!.
  - done.
  - intros bh [|x xs] w Hbh Hne; [done|].
    unfold handle_batch. rewrite Hbh. unfold bind, ret.
    destruct (bh (x :: xs) w) as [[v|e] w']; [|done].
    destruct v as [| | | |[|y ys]| |]; done.
  - intros [|x xs] w Hbh; [done|].
    unfold handle_batch. rewrite Hbh. unfold bind at 1.
    rewrite handle_each_spec. unfold bind, ret.
    by destruct (mapM (handle_message rt) (x :: xs) w) as [[rs|e] w'].
Qed.

(** *** Segment type extraction, continued *)

(** C5 (amended). [_extract_segment_type] reads [message_segment] when it
    is present and truthy, and [message_chain] when [message_segment] is
    absent or falsy ([None], an empty mapping, an empty list); from the
    value chosen it returns the [type] field of a mapping, or of the first
    element of a non-empty list, and [None] otherwise.  So a non-empty
    mapping under [message_segment] decides the result alone, and with no
    [message_segment] key the result is the one the specification
    describes, as long as [message_chain] is not itself a mapping. *)
Theorem extract_segment_type_amended (E : envelope) :
  let seg := dict_get E "message_segment" PNone in
  let chain := dict_get E "message_chain" PNone in
  (truthy seg = true → _extract_segment_type E = segment_type_of seg) ∧
  (truthy seg = false → _extract_segment_type E = segment_type_of chain) ∧
  (∀ d, E !! "message_segment" = Some (PDict d) → d ≠ ∅ →
        _extract_segment_type E = dict_get d "type" PNone) ∧
  (E !! "message_segment" = None →
   (∀ d, E !! "message_chain" ≠ Some (PDict d)) →
   _extract_segment_type E = spec_extract_segment_type E).
Proof.
  intros seg chain. subst seg chain. split_and!.
  - intros Ht. by rewrite extract_segment_type_eq, Ht.
  - intros Ht. by rewrite extract_segment_type_eq, Ht.
  - intros d Hd Hne. rewrite extract_segment_type_eq.
    unfold dict_get at 1 2. rewrite Hd. simpl.
    by rewrite bool_decide_false.
  - intros Hs Hc. rewrite extract_segment_type_eq.
    unfold spec_extract_segment_type, dict_get at 1 3. rewrite Hs. simpl.
    destruct (E !! "message_chain") as [[| | | |[|[] ?]| |d]|]; simpl; try done.
    by destruct (Hc d).
Qed.

(** *** The platform filter of [on_message] *)




(** *** The adapter bridge *)

Lemma py_ne_str_spec v p : py_ne_str v p = true ↔ v ≠ PStr p.
Proof.
  destruct v as [| | |s| | |]; simpl; try (split; [discriminate|done]).
  destruct (decide (s = p)) as [->|Hne].
  - rewrite bool_decide_true by done. simpl. split; [discriminate|congruence].
  - rewrite bool_decide_false by done. simpl. split; [congruence|done].
Qed.

Lemma outgoing_tag_eval E :
  message_info_typed E →
  ∃ v, py_or_lazy (dict_get E "platform" PNone)
         (py_get (dict_get E "message_info" (PDict ∅)) "platform" PNone) = Ok v ∧
       carried_tag E = if truthy v then Some v else None.
Proof.
  unfold message_info_typed, carried_tag, py_or_lazy, dict_get.
  intros Hty.
  assert (∃ v, py_get (default (PDict ∅) (E !! "message_info")) "platform" PNone = Ok v ∧
               match E !! "message_info" with
               | Some (PDict info) =>
                   match info !! "platform" with
                   | Some v' => if truthy v' then Some v' else None
                   | None => None
                   end
               | _ => None
               end = if truthy v then Some v else None) as (v & Hv & Hc).
  { destruct (E !! "message_info") as [[| | | | | |info]|]; simpl in *; try done.
    - unfold dict_get. destruct (info !! "platform") as [v'|]; simpl; eauto.
    - unfold dict_get. rewrite lookup_empty. simpl. eauto. }
  destruct (E !! "platform") as [top|]; simpl.
  - destruct (truthy top) eqn:Ht.
    + exists top. by rewrite Ht.
    + exists v. done.
  - exists v. done.
Qed.

(** C8. For an envelope whose [message_info], when present, is a mapping:
    the tag the bridge looks at is the top-level [platform] when it is set
    and the [platform] of [message_info] otherwise.  When that tag differs
    from the adapter's platform the bridge returns without sending and
    leaves the world as it was; when there is no tag or the tag is the
    adapter's platform the bridge does exactly what one call of
    [_send_platform_message] on the envelope does. *)
Theorem on_outgoing_from_core_spec (self : AdapterBase) E w :
  message_info_typed E →
  (∀ tag, carried_tag E = Some tag → tag ≠ PStr (platform self) →
     _on_outgoing_from_core self E w = (Ok (), w)) ∧
  (carried_tag E = None ∨ carried_tag E = Some (PStr (platform self)) →
     _on_outgoing_from_core self E w = _send_platform_message self E w).
Proof.
  intros (v & Hv & Hc)%outgoing_tag_eval.
  unfold _on_outgoing_from_core, bind, lift. rewrite Hv, Hc.
  destruct (truthy v) eqn:Ht; simpl.
  - split.
    + intros tag [= <-] Hne. apply py_ne_str_spec in Hne. by rewrite Hne.
    + intros [[=]|[= ->]]. simpl. by rewrite bool_decide_true.
  - split; [discriminate|done].
Qed.

(** ** Further properties of the code *)

(** *** The owner map and the indices *)

Lemma add_route_unfold p h n mt events rt :
  add_route p h n mt events rt =
  match message_types_of mt with
  | Raise e => (Raise e, rt)
  | Ok (None, single) => (Ok (), insert_route p h n single None events rt)
  | Ok (Some ts, single) =>
      match claim_types (handler_name_of n h) ts (_explicit_type_handlers rt) with
      | (Ok _, owners) =>
          (Ok (), insert_route p h n single (Some ts) events (set_owners owners rt))
      | (Raise e, owners) => (Raise e, set_owners owners rt)
      end
  end.
Proof.
  unfold add_route. destruct (message_types_of mt) as [[[ts|] single]|e]; [| |done].
  - by destruct (claim_types _ ts _) as [[[]|e] owners].
  - by rewrite set_owners_id.
Qed.

Lemma claim_types_others hn types owners res owners' t :
  claim_types hn types owners = (res, owners') →
  t ∉ types → owners' !! t = owners !! t.
Proof.
  revert owners. induction types as [|k rest IH]; intros owners; simpl.
  - by intros [= _ <-].
  - destruct (owners !! k) as [existing|] eqn:Hk.
    + by intros [= _ <-].
    + intros Hc [Hne Ht]%not_elem_of_cons. rewrite (IH _ Hc Ht).
      by rewrite lookup_insert_ne.
Qed.

(** In a runtime built by registrations, a type a route holds is recorded
    for the handler name of that route, and no other route holds it. *)
Lemma reachable_owners rt :
  reachable rt →
  (∀ r t, r ∈ _routes rt → holds_type r t →
     _explicit_type_handlers rt !! t = Some (handler_name_of (name r) (handler r))) ∧
  (∀ r1 r2 t, r1 ∈ _routes rt → r2 ∈ _routes rt →
     holds_type r1 t → holds_type r2 t → r1 = r2).
Proof.
  induction 1 as [|p h n mt events rt _ [IH1 IH2]|hook rt _ IH|hook rt _ IH
                  |hook rt _ IH|mw rt _ IH|bh rt _ IH]; try exact IH.
  - split; [intros r t Hr|intros r1 r2 t Hr]; by apply elem_of_nil in Hr.
  - rewrite add_route_unfold.
    destruct (message_types_of mt) as [[[ts|] single]|e]; simpl; [| |done].
    + destruct (claim_types _ ts _) as [[[]|e] owners] eqn:Hc; simpl.
      * assert (Hnew : ∀ r t, r ∈ _routes rt → holds_type r t → t ∉ ts).
        { intros r t Hr Ht Hin. specialize (IH1 r t Hr Ht).
          by rewrite (claim_types_ok _ _ _ _ Hc t Hin) in IH1. }
        split.
        -- intros r t [Hr|Hr]%elem_of_app Ht.
           ++ apply (claim_types_mono _ _ _ _ _ _ _ Hc). by apply IH1.
           ++ apply list_elem_of_singleton in Hr as ->. simpl.
              destruct Ht as (ts' & [= <-] & Hin).
              by apply (claim_types_recorded _ _ _ _ Hc).
        -- intros r1 r2 t [H1|H1]%elem_of_app [H2|H2]%elem_of_app Ht1 Ht2.
           ++ by apply (IH2 r1 r2 t).
           ++ apply list_elem_of_singleton in H2 as ->.
              destruct Ht2 as (ts' & [= <-] & Hin).
              destruct (Hnew r1 t H1 Ht1 Hin).
           ++ apply list_elem_of_singleton in H1 as ->.
              destruct Ht1 as (ts' & [= <-] & Hin).
              destruct (Hnew r2 t H2 Ht2 Hin).
           ++ apply list_elem_of_singleton in H1, H2. congruence.
      * split.
        -- intros r t Hr Ht. apply (claim_types_mono _ _ _ _ _ _ _ Hc). by apply IH1.
        -- exact IH2.
    + split.
      * intros r t [Hr|Hr]%elem_of_app Ht; [by apply IH1|].
        apply list_elem_of_singleton in Hr as ->.
        by destruct Ht as (ts' & [=] & _).
      * intros r1 r2 t [H1|H1]%elem_of_app [H2|H2]%elem_of_app Ht1 Ht2.
        -- by apply (IH2 r1 r2 t).
        -- apply list_elem_of_singleton in H2 as ->.
           by destruct Ht2 as (ts' & [=] & _).
        -- apply list_elem_of_singleton in H1 as ->.
           by destruct Ht1 as (ts' & [=] & _).
        -- apply list_elem_of_singleton in H1, H2. congruence.
Qed.

(** X1. In every runtime built by registrations, two routes that hold the
    same explicit message type are one and the same route, and
    [_explicit_type_handlers] records that type under the handler name of
    that route. *)
Theorem explicit_type_has_one_route rt r1 r2 t :
  reachable rt →
  r1 ∈ _routes rt → r2 ∈ _routes rt →
  holds_type r1 t → holds_type r2 t →
  r1 = r2 ∧
  _explicit_type_handlers rt !! t = Some (handler_name_of (name r1) (handler r1)).
Proof.
  intros [H1 H2]%reachable_owners Hr1 Hr2 Ht1 Ht2. split.
  - by apply (H2 r1 r2 t).
  - by apply H1.
Qed.

Lemma index_route_lookup_out route keys index k :
  k ∉ keys → index_route route keys index !! k = index !! k.
Proof.
  unfold index_route. revert index.
  induction keys as [|k0 keys IH]; intros index Hk; simpl; [done|].
  apply not_elem_of_cons in Hk as [Hne Hk].
  rewrite (IH _ Hk). by rewrite lookup_insert_ne.
Qed.

Lemma index_route_lookup_in route keys index k :
  NoDup keys → k ∈ keys →
  index_route route keys index !! k = Some (default [] (index !! k) ++ [route]).
Proof.
  revert index.
  induction keys as [|k0 keys IH]; intros index Hnd Hk.
  - by apply elem_of_nil in Hk.
  - apply NoDup_cons in Hnd as [Hk0 Hnd].
    change (index_route route (k0 :: keys) index) with
      (index_route route keys (<[k0 := default [] (index !! k0) ++ [route]]> index)).
    destruct (decide (k = k0)) as [->|Hne].
    + rewrite index_route_lookup_out by done. apply lookup_insert_eq.
    + apply elem_of_cons in Hk as [?|Hk]; [done|].
      rewrite (IH _ Hnd Hk). by rewrite lookup_insert_ne.
Qed.

(** X2. A registration with event types and no message type never fails,
    whatever is registered already: the new route is appended to
    [_routes] and to the end of the bucket of each of its event types,
    after the routes registered there before; the other event buckets,
    the type index and the owner map are untouched. *)
Theorem add_route_event_types_append p h n events rt :
  ∃ r,
    add_route p h n MtNone (Some events) rt =
      (Ok (), insert_route p h n None None (Some events) rt) ∧
    _routes (insert_route p h n None None (Some events) rt) = _routes rt ++ [r] ∧
    is_generic r = false ∧
    (∀ e, e ∈ events →
       _event_routes (insert_route p h n None None (Some events) rt) !! e =
       Some (default [] (_event_routes rt !! e) ++ [r])) ∧
    (∀ e, e ∉ events →
       _event_routes (insert_route p h n None None (Some events) rt) !! e =
       _event_routes rt !! e) ∧
    _type_routes (insert_route p h n None None (Some events) rt) = _type_routes rt ∧
    _explicit_type_handlers (insert_route p h n None None (Some events) rt) =
      _explicit_type_handlers rt.
Proof using set_of_list_perm.
  eexists. split_and!.
  - apply add_route_none.
  - reflexivity.
  - reflexivity.
  - intros e He. simpl. apply index_route_lookup_in.
    + apply NoDup_set_of_list.
    + by apply elem_of_set_of_list.
  - intros e He. simpl. apply index_route_lookup_out.
    by rewrite elem_of_set_of_list.
  - reflexivity.
  - reflexivity.
Qed.

(** *** The matcher, continued *)

Lemma scan_app message a b seen :
  scan message (a ++ b) seen =
  match scan message a seen with
  | Ok (None, seen') => scan message b seen'
  | other => other
  end.
Proof.
  revert seen. induction a as [|route rest IH]; intros seen; simpl; [done|].
  destruct (decide (route_id route ∈ seen)); [apply IH|].
  destruct (predicate route message) as [v|e]; [|done].
  destruct (truthy v); [done|apply IH].
Qed.

Lemma match_route_scan rt message cands :
  priority_candidates rt message = Ok cands →
  _match_route rt message =
  (found ← scan message (cands ++ normal_candidates rt) ∅; Ok (fst found)).
Proof.
  intros Hc. unfold _match_route. rewrite Hc. simpl. rewrite scan_app.
  by destruct (scan message cands ∅) as [[[r|] seen]|e].
Qed.

Lemma candidates_registered rt message cands c :
  registry_ok rt →
  priority_candidates rt message = Ok cands →
  c ∈ cands ++ normal_candidates rt → c ∈ _routes rt.
Proof.
  intros Hok Hc [Hin|Hin]%elem_of_app.
  - by apply (priority_candidates_elem rt message cands c Hok Hc) in Hin as [? _].
  - unfold normal_candidates in Hin. by apply list_elem_of_filter in Hin as [_ ?].
Qed.

Lemma scan_first (U : list MessageRoute) message before r after seen :
  (∀ a b, a ∈ U → b ∈ U → route_id a = route_id b → a = b) →
  (∀ c, c ∈ before ++ r :: after → c ∈ U) →
  (∀ c, c ∈ U → route_id c ∈ seen → yields_falsy message c) →
  (∀ c, c ∈ before → yields_falsy message c) →
  yields_truthy message r →
  ∃ seen', scan message (before ++ r :: after) seen = Ok (Some r, seen').
Proof.
  intros Hinj. revert seen.
  induction before as [|c before IH]; intros seen HU Hseen Hfalsy Hr; simpl.
  - destruct (decide (route_id r ∈ seen)) as [Hin|_].
    + destruct (yields_not_both message r Hr). apply Hseen; [|done]. apply HU. left.
    + destruct Hr as (v & -> & ->). eauto.
  - assert (HcU : c ∈ U) by (apply HU; left).
    assert (HU' : ∀ c', c' ∈ before ++ r :: after → c' ∈ U)
      by (intros c' Hc'; apply HU; by right).
    assert (Hf' : ∀ c', c' ∈ before → yields_falsy message c')
      by (intros c' Hc'; apply Hfalsy; by right).
    destruct (decide (route_id c ∈ seen)) as [_|_]; [by apply IH|].
    destruct (Hfalsy c) as (v & Hv & Ht); [left|]. rewrite Hv, Ht.
    apply IH; [done| |done|done].
    intros c' Hc' [Hid|Hs]%elem_of_union; [|by apply Hseen].
    apply elem_of_singleton in Hid. rewrite (Hinj c' c Hc' HcU Hid). by exists v.
Qed.

(** X3. In a runtime built by registrations, [_match_route] returns the
    first route, in the order event bucket, type bucket, then generic
    routes in registration order, whose predicate yields truthy, once the
    predicates of all the candidates before it have yielded falsy. *)
Theorem match_route_first_truthy rt E cands before r after :
  reachable rt →
  priority_candidates rt E = Ok cands →
  cands ++ normal_candidates rt = before ++ r :: after →
  (∀ c, c ∈ before → yields_falsy E c) →
  yields_truthy E r →
  _match_route rt E = Ok (Some r).
Proof.
  intros Hok%reachable_registry_ok Hc Hsplit Hfalsy Hr.
  rewrite (match_route_scan rt E cands Hc), Hsplit.
  destruct (scan_first (_routes rt) E before r after ∅) as [seen' ->];
    [|intros c Hin|intros c _ Hin|done|done|done].
  - intros a b. by apply registry_ok_same_id.
  - rewrite <- Hsplit in Hin. by apply (candidates_registered rt E cands).
  - by apply elem_of_empty in Hin.
Qed.

Lemma match_route_sound rt E cands :
  registry_ok rt →
  priority_candidates rt E = Ok cands →
  match _match_route rt E with
  | Ok (Some r) => r ∈ cands ++ normal_candidates rt ∧ yields_truthy E r
  | Ok None => ∀ c, c ∈ cands ++ normal_candidates rt → yields_falsy E c
  | Raise e => ∃ c, c ∈ cands ++ normal_candidates rt ∧ predicate c E = Raise e
  end.
Proof.
  intros Hok Hc. rewrite (match_route_scan rt E cands Hc).
  pose proof (scan_spec (_routes rt) E (cands ++ normal_candidates rt) ∅
                (λ a b, registry_ok_same_id rt a b Hok)) as Hs.
  destruct (scan E (cands ++ normal_candidates rt) ∅) as [[[r|] seen']|e]; simpl; apply Hs.
  all: try (intros c Hin; by apply (candidates_registered rt E cands)).
  all: intros c _ Hin; by apply elem_of_empty in Hin.
Qed.

(** X4. In a runtime built by registrations, a route [_match_route]
    returns is registered, is a priority candidate or a generic route, and
    its predicate yielded truthy; nothing is returned exactly when the
    predicate of every candidate yields falsy; and an exception
    [_match_route] propagates, once the candidate lists are built, was
    raised by the predicate of a candidate. *)
Theorem match_route_outcomes rt E cands :
  reachable rt →
  priority_candidates rt E = Ok cands →
  (∀ r, _match_route rt E = Ok (Some r) →
     r ∈ _routes rt ∧ r ∈ cands ++ normal_candidates rt ∧ yields_truthy E r) ∧
  (_match_route rt E = Ok None ↔
     ∀ c, c ∈ cands ++ normal_candidates rt → yields_falsy E c) ∧
  (∀ e, _match_route rt E = Raise e →
     ∃ c, c ∈ cands ++ normal_candidates rt ∧ predicate c E = Raise e).
Proof.
  intros Hok%reachable_registry_ok Hc.
  pose proof (match_route_sound rt E cands Hok Hc) as Hs. split_and!.
  - intros r Hr. rewrite Hr in Hs. destruct Hs as [Hin Ht]. split_and!; [|done|done].
    by apply (candidates_registered rt E cands).
  - split.
    + intros Hn. by rewrite Hn in Hs.
    + intros Hall. destruct (_match_route rt E) as [[r|]|e]; [|done|].
      * destruct Hs as [Hin Ht]. destruct (yields_not_both E r Ht (Hall r Hin)).
      * destruct Hs as (c & Hin & He). destruct (Hall c Hin) as (v & Hv & _). congruence.
  - intros e He. by rewrite He in Hs.
Qed.

(** X5. A route registered with an empty list of message types and no
    event type is never returned by [_match_route]: it is in no bucket,
    and it does not count as generic. *)
Theorem empty_type_list_route_never_matches rt r E :
  reachable rt →
  r ∈ _routes rt →
  message_types r = Some [] →
  (event_types r = None ∨ event_types r = Some []) →
  _match_route rt E ≠ Ok (Some r).
Proof.
  intros Hok%reachable_registry_ok Hr Hty Hev Hm.
  destruct (priority_candidates rt E) as [cands|e] eqn:Hc.
  - pose proof (match_route_sound rt E cands Hok Hc) as Hs. rewrite Hm in Hs.
    destruct Hs as [[Hin|Hin]%elem_of_app _].
    + apply (priority_candidates_elem rt E cands r Hok Hc) in Hin
        as [_ [(t & _ & _ & ts & Hts & Hin)|(e & _ & _ & es & Hes & Hin)]].
      * rewrite Hty in Hts. injection Hts as <-. by apply elem_of_nil in Hin.
      * destruct Hev as [Hev|Hev]; rewrite Hev in Hes; [done|].
        injection Hes as <-. by apply elem_of_nil in Hin.
    + unfold normal_candidates in Hin. apply list_elem_of_filter in Hin as [Hg _].
      unfold is_generic in Hg. by rewrite Hty in Hg.
  - unfold _match_route in Hm. by rewrite Hc in Hm.
Qed.

(** *** Dispatch, continued *)

(** X6. When the before-hooks complete and no route matches,
    [handle_message] returns [None] and leaves the world as the
    before-hooks left it: neither an after-hook nor an error-hook runs. *)
Theorem handle_message_no_match rt E w w1 :
  _run_hooks (_before_hooks rt) E w = (Ok (), w1) →
  _match_route rt E = Ok None →
  handle_message rt E w = (Ok PNone, w1).
Proof.
  intros Hb Hm. unfold handle_message, bind. rewrite Hb.
  unfold try_except, dispatch, bind, lift. by rewrite Hm.
Qed.

(** X7. When the before-hooks complete, a route matches and the chain
    around its handler returns [result], the after-hooks are run, side by
    side, on the envelope after the handler.  When they return, every one
    of them has run to its end and [handle_message] returns [result]; when
    one raises, [handle_message] fails with the exception of an after-hook
    as it is: it is not wrapped, and no error-hook runs.  It fails so
    whenever one of the after-hooks raises however it is run. *)
Theorem handle_message_success rt E w w1 route result w2 :
  _run_hooks (_before_hooks rt) E w = (Ok (), w1) →
  _match_route rt E = Ok (Some route) →
  _wrap_with_middlewares rt (handler route) E w1 = (Ok result, w2) →
  match _run_hooks (_after_hooks rt) E w2 with
  | (Ok _, w3) =>
      runs_all ((λ hook, hook E) <$> _after_hooks rt) w2 w3 ∧
      handle_message rt E w = (Ok result, w3)
  | (Raise e, w3) =>
      (∃ hook, hook ∈ _after_hooks rt ∧ may_raise (hook E) e) ∧
      handle_message rt E w = (Raise e, w3)
  end ∧
  (∀ hook, hook ∈ _after_hooks rt → always_raises (hook E) →
     ∃ e w3, handle_message rt E w = (Raise e, w3) ∧
             ∃ hook', hook' ∈ _after_hooks rt ∧ may_raise (hook' E) e).
Proof.
  intros Hb Hm Hc.
  assert (∀ o w3, _run_hooks (_after_hooks rt) E w2 = (o, w3) →
            handle_message rt E w =
            (match o with Ok _ => Ok result | Raise e => Raise e end, w3)) as Hh.
  { intros o w3 Ha. unfold handle_message, bind. rewrite Hb.
    unfold try_except, dispatch, bind, lift, ret. rewrite Hm, Hc, Ha.
    by destruct o as [[]|e]. }
  pose proof (run_hooks_spec (_after_hooks rt) E w2) as Hs.
  split.
  - destruct (_run_hooks (_after_hooks rt) E w2) as [[[]|e] w3] eqn:Ha;
      (split; [exact Hs|by apply (Hh _ _ eq_refl)]).
  - intros hook Hin Hr.
    destruct (run_hooks_always_raises _ hook E w2 Hin Hr) as (e & w3 & Ha).
    rewrite Ha in Hs. exists e, w3. split; [by apply (Hh _ _ Ha)|exact Hs].
Qed.

(** X8. An exception raised in the [try] block that is not an instance of
    [Exception] leaves [handle_message] unwrapped, with the world as the
    failing stage left it: no error-hook and no after-hook runs. *)
Theorem handle_message_base_exception_unwrapped rt E w w1 exc w2 :
  _run_hooks (_before_hooks rt) E w = (Ok (), w1) →
  dispatch rt E w1 = (Raise exc, w2) →
  is_Exception exc = false →
  handle_message rt E w = (Raise exc, w2).
Proof. apply handle_message_base_exception. Qed.

(** X9. When an error-hook raises however it is run while a failure is
    being reported, [handle_message] fails with the exception the
    error-hook phase propagates, which was raised by an error-hook, in
    whatever order the loop resumes the hooks: the
    [MessageProcessingError] is never raised. *)
Theorem handle_message_error_hook_exception_wins rt E w w1 exc w2 hook :
  _run_hooks (_before_hooks rt) E w = (Ok (), w1) →
  dispatch rt E w1 = (Raise exc, w2) →
  is_Exception exc = true →
  hook ∈ _error_hooks rt → always_raises (hook E exc) →
  ∃ e w3,
    _run_error_hooks rt E exc w2 = (Raise e, w3) ∧
    handle_message rt E w = (Raise e, w3) ∧
    ∃ hook', hook' ∈ _error_hooks rt ∧ may_raise (hook' E exc) e.
Proof.
  intros Hb Hd Hx Hin Hr.
  destruct (run_error_hooks_always_raises rt hook E exc w2 Hin Hr) as (e & w3 & He).
  exists e, w3. split_and!.
  - done.
  - by eapply handle_message_error_hook_raise.
  - pose proof (run_error_hooks_spec rt E exc w2) as Hs. by rewrite He in Hs.
Qed.

Lemma mapM_app {A B} (f : A → M B) xs ys w :
  mapM f (xs ++ ys) w =
  (a ⇐ mapM f xs; b ⇐ mapM f ys; ret (a ++ b)) w.
Proof.
  revert w. induction xs as [|x xs IH]; intros w; simpl.
  - unfold bind, ret. by destruct (mapM f ys w) as [[b|e] w1].
  - unfold bind. destruct (f x w) as [[y|e] w1]; [|done].
    rewrite IH. unfold bind, ret.
    destruct (mapM f xs w1) as [[a|e] w2]; [|done].
    by destruct (mapM f ys w2) as [[b|e] w3].
Qed.

(** X10. Without a batch handler, [handle_batch] stops at the first
    envelope on which [handle_message] fails: it fails with that
    exception, the envelopes after it are not dispatched, and the
    responses gathered so far are not returned. *)
Theorem handle_batch_stops_at_first_failure rt xs x ys w rs w1 e w2 :
  _batch_handler rt = None →
  mapM (handle_message rt) xs w = (Ok rs, w1) →
  handle_message rt x w1 = (Raise e, w2) →
  handle_batch rt (xs ++ x :: ys) w = (Raise e, w2).
Proof.
  intros Hbh Hxs Hx. unfold handle_batch. rewrite Hbh.
  destruct (xs ++ x :: ys) as [|z zs] eqn:Hl.
  { by destruct xs. }
  rewrite <- Hl. unfold bind at 1. rewrite handle_each_spec.
  unfold bind at 1. rewrite mapM_app. unfold bind at 1. rewrite Hxs.
  simpl. unfold bind at 1 2. by rewrite Hx.
Qed.

(** *** The filters of [on_message] *)

(** X11. For an envelope whose [message_info], when present, is a mapping,
    the platform test of the predicate built by [on_message] is decided by
    the [platform] field of [message_info] when it is not [None]: the test
    passes when that field is the platform asked for, whatever the
    top-level [platform] says.  Only when it is [None] does the top-level
    field count, and the test passes when that one is [None] or the
    platform asked for.  When the test fails the predicate answers as if
    the custom predicate had answered [False]; the custom predicate is not
    consulted. *)
Theorem platform_filter_decides types p pred E :
  message_info_typed E →
  combined_predicate types (Some p) pred E =
  combined_predicate types None
    (if (if is_none (info_platform_of E)
         then in_none_or p (dict_get E "platform" PNone)
         else py_eq_str (info_platform_of E) p)
     then pred else Some never) E.
Proof.
  intros Hty. unfold combined_predicate, info_platform_of, message_info_typed in *.
  destruct (match types with Some _ => _ | None => _ end) as [[]|e]; simpl; try done.
  assert (py_get (dict_get E "message_info" (PDict ∅)) "platform" PNone =
          Ok (match E !! "message_info" with
              | Some (PDict info) => dict_get info "platform" PNone
              | _ => PNone
              end)) as ->.
  { unfold dict_get. by destruct (E !! "message_info") as [[| | | | | |info]|]. }
  simpl.
  destruct (match E !! "message_info" with Some (PDict info) => _ | _ => PNone end)
    as [| | |s| | |] eqn:Hi; simpl;
    try (by destruct (in_none_or p (dict_get E "platform" PNone)));
    try (by rewrite andb_false_r).
  rewrite andb_false_r. unfold py_eq_str. simpl.
  by destruct (bool_decide (s = p)).
Qed.

(** X12. The message-type test of the predicate built by [on_message]
    comes first: on an envelope whose segment type is not one of the types
    asked for, the predicate answers [False] whatever the platform filter
    and the custom predicate are, and raises the [TypeError] of [hash]
    when the segment type cannot be hashed; the error names the type of
    the part the hash fails on, a list inside a tuple for one. *)
Theorem type_filter_rejects_first types platform pred E :
  (∀ t, _extract_segment_type E = PStr t → t ∉ types) →
  combined_predicate (Some types) platform pred E =
  match unhashable_part (_extract_segment_type E) with
  | None => Ok (PBool false)
  | Some part => Raise (TypeError ("unhashable type: '" +:+ type_name part +:+ "'"))
  end.
Proof.
  intros Hout. unfold combined_predicate, py_in_set.
  destruct (_extract_segment_type E) as [| | |t| |l|] eqn:Ht; try done.
  - simpl. by rewrite bool_decide_false by (by apply Hout).
  - by destruct (unhashable_part (PTuple l)).
Qed.

(** *** Deferred method routes *)

Lemma handler_name_of_bound n func call :
  handler_name_of n (bound_method func call) = handler_name_of n func.
Proof. done. Qed.

(** X13. [_register_instance] registers an instance once: after a call
    that succeeded the instance is in [_registered_instances], and a
    second call for it changes neither the set nor the runtime. *)
Theorem register_instance_idempotent d body i reg rt reg1 rt1 :
  _register_instance d body i reg rt = (Ok (), (reg1, rt1)) →
  i ∈ reg1 ∧ _register_instance d body i reg1 rt1 = (Ok (), (reg1, rt1)).
Proof.
  unfold _register_instance at 1.
  destruct (decide (i ∈ reg)) as [Hin|Hout].
  - intros [= <- <-]. split; [done|]. unfold _register_instance.
    by rewrite decide_True.
  - destruct (add_route _ _ _ _ None rt) as [[[]|e] rt'] eqn:Ha; [|discriminate].
    intros [= <- <-].
    assert (i ∈ ({[i]} ∪ reg : gset nat)) as Hin
      by (apply elem_of_union; left; by apply elem_of_singleton).
    split; [done|]. unfold _register_instance. by rewrite decide_True.
Qed.

(** X14. For a method decorated with an explicit message type, once one
    instance is registered the registration of any other instance raises
    the duplicate-registration error, where the type is said to be owned
    by the handler of the same name; the instance is not recorded and the
    runtime is left as it was. *)
Theorem register_second_instance_of_typed_method d body i j reg rt reg1 rt1 t ts single :
  message_types_of (_message_type d) = Ok (Some (t :: ts), single) →
  i ∉ reg →
  _register_instance d body i reg rt = (Ok (), (reg1, rt1)) →
  j ∉ reg1 →
  _register_instance d body j reg1 rt1 =
    (Raise (duplicate_type_error t (handler_name_of (_name d) (_func d))
              (handler_name_of (_name d) (_func d))),
     (reg1, rt1)).
Proof.
  intros Hmt Hi Hreg Hj. unfold _register_instance in *.
  rewrite decide_False in Hreg by done. rewrite decide_False by done.
  rewrite add_route_unfold, Hmt, handler_name_of_bound in Hreg.
  rewrite add_route_unfold, Hmt, handler_name_of_bound.
  destruct (claim_types _ (t :: ts) (_explicit_type_handlers rt))
    as [[[]|e] owners] eqn:Hc; [|discriminate].
  injection Hreg as <- <-.
  pose proof (claim_types_recorded _ _ _ _ Hc t) as Ht.
  simpl. rewrite Ht by left. simpl.
  change (set_owners owners (insert_route _ _ _ _ _ _ (set_owners owners rt)))
    with (set_owners (_explicit_type_handlers
                        (insert_route (_predicate d) (bound_method (_func d) (body i))
                           (_name d) single (Some (t :: ts)) None (set_owners owners rt)))
            (insert_route (_predicate d) (bound_method (_func d) (body i))
               (_name d) single (Some (t :: ts)) None (set_owners owners rt))).
  by rewrite set_owners_id.
Qed.

(** X15. For a method decorated without a message type, as [route] does,
    every new instance registers a route of its own: the call cannot fail,
    and the routes of two instances are generic, carry the same predicate
    and stand in [_routes] in the order the instances were registered. *)
Theorem register_instances_of_untyped_method d body i j reg rt :
  _message_type d = MtNone →
  i ∉ reg → j ∉ reg → i ≠ j →
  ∃ ri rj rt1 rt2,
    _register_instance d body i reg rt = (Ok (), ({[i]} ∪ reg, rt1)) ∧
    _register_instance d body j ({[i]} ∪ reg) rt1 = (Ok (), ({[j]} ∪ ({[i]} ∪ reg), rt2)) ∧
    _routes rt2 = _routes rt ++ [ri; rj] ∧
    is_generic ri = true ∧ is_generic rj = true ∧
    predicate ri = _predicate d ∧ predicate rj = _predicate d ∧
    handler_call (handler ri) = body i ∧ handler_call (handler rj) = body j.
Proof.
  intros Hmt Hi Hj Hij.
  set (rt1 := insert_route (_predicate d) (bound_method (_func d) (body i))
                (_name d) None None None rt).
  set (rt2 := insert_route (_predicate d) (bound_method (_func d) (body j))
                (_name d) None None None rt1).
  eexists _, _, rt1, rt2. split_and!.
  - unfold _register_instance. rewrite decide_False by done.
    by rewrite Hmt, add_route_none.
  - unfold _register_instance. rewrite decide_False.
    + by rewrite Hmt, add_route_none.
    + intros [Hs|Hr]%elem_of_union; [by apply elem_of_singleton in Hs|done].
  - simpl. by rewrite <- app_assoc.
  - reflexivity.
  - reflexivity.
  - reflexivity.
  - reflexivity.
  - reflexivity.
  - reflexivity.
Qed.

(** *** Core sinks and the inbound side of the adapter *)

Section adapter_properties.

Variable handlers_order : gmap nat OutgoingHandler → list OutgoingHandler.
Hypothesis handlers_order_perm : ∀ m, handlers_order m ≡ₚ (map_to_list m).*2.
Variable orjson_loads : string → outcome pyval.
Variable orjson_dumps : pyval → outcome string.

Lemma unit_eta (c : M unit) w : (_ ⇐ c; ret ()) w = c w.
Proof. unfold bind, ret. by destruct (c w) as [[[]|e] w1]. Qed.

Lemma handlers_order_singleton k h : handlers_order {[k := h]} = [h].
Proof using handlers_order_perm.
  pose proof (handlers_order_perm {[k := h]}) as Hp.
  rewrite map_to_list_singleton in Hp. simpl in Hp.
  by apply Permutation_singleton_r in Hp.
Qed.

(** X16. Registering an outgoing handler on an in-process sink twice is
    registering it once, passing [None] registers nothing, removing a
    handler twice is removing it once, and removing a handler that was
    just added to a sink that did not have it gives the sink back. *)
Theorem outgoing_handler_registration (s : InProcessCoreSink) h :
  InProcessCoreSink_set_outgoing_handler None s = s ∧
  InProcessCoreSink_set_outgoing_handler (Some h)
    (InProcessCoreSink_set_outgoing_handler (Some h) s) =
  InProcessCoreSink_set_outgoing_handler (Some h) s ∧
  InProcessCoreSink_remove_outgoing_handler h
    (InProcessCoreSink_remove_outgoing_handler h s) =
  InProcessCoreSink_remove_outgoing_handler h s ∧
  (_outgoing_handlers s !! callback_key h = None →
   InProcessCoreSink_remove_outgoing_handler h
     (InProcessCoreSink_set_outgoing_handler (Some h) s) = s).
Proof.
  destruct s as [handler m].
  unfold InProcessCoreSink_set_outgoing_handler,
    InProcessCoreSink_remove_outgoing_handler. simpl.
  split_and!.
  - done.
  - destruct (m !! callback_key h) as [h'|] eqn:Hk.
    + by rewrite Hk.
    + by rewrite lookup_insert_eq.
  - by rewrite delete_delete_eq.
  - intros Hk. rewrite Hk. f_equal. rewrite delete_insert_eq. by apply delete_id.
Qed.

(** X17. On an in-process sink, [push_outgoing] with no handler registered
    drops the envelope; with one handler registered it does what one call
    of that handler on the envelope does; after the handler is removed,
    or after [close], the envelope is dropped again. *)
Theorem push_outgoing_reaches_the_handler handler h E w :
  let s0 := InProcessCoreSink_init handler in
  let s1 := InProcessCoreSink_set_outgoing_handler (Some h) s0 in
  InProcessCoreSink_push_outgoing handlers_order s0 E w = (Ok (), w) ∧
  InProcessCoreSink_push_outgoing handlers_order s1 E w = callback h E w ∧
  InProcessCoreSink_push_outgoing handlers_order
    (InProcessCoreSink_remove_outgoing_handler h s1) E w = (Ok (), w) ∧
  InProcessCoreSink_push_outgoing handlers_order (InProcessCoreSink_close s1) E w
    = (Ok (), w).
Proof using handlers_order_perm.
  intros s0 s1. unfold InProcessCoreSink_push_outgoing. simpl. split_and!.
  - done.
  - rewrite lookup_empty, insert_empty, map_size_singleton. simpl.
    rewrite handlers_order_singleton. simpl. apply unit_eta.
  - rewrite lookup_empty, insert_empty, delete_singleton_eq. done.
  - done.
Qed.

Lemma for_each_mapM_singleton {A} (f : A → M envelope) (g : envelope → M unit) x w :
  (ys ⇐ mapM f [x]; for_each g ys) w = (y ⇐ f x; g y) w.
Proof.
  simpl. unfold bind at 1 2 4, ret at 1. destruct (f x w) as [[y|e] w1]; [|done].
  simpl. apply unit_eta.
Qed.

(** X18. With an in-process sink, [on_platform_messages] converts every
    raw message first and then hands the envelopes to the core handler in
    order; whatever the sink, when a conversion fails the sink is not
    called at all; and a batch of one raw message is what
    [on_platform_message] does on it. *)
Theorem on_platform_messages_converts_first (s : InProcessCoreSink) from_raw :
  let a := {| from_platform_message := from_raw;
              core_sink := InProcessCoreSink_sink s |} in
  (∀ raws w, on_platform_messages a raws w =
             (envelopes ⇐ mapM from_raw raws; for_each (_handler s) envelopes) w) ∧
  (∀ sink raws w e w',
     mapM from_raw raws w = (Raise e, w') →
     on_platform_messages {| from_platform_message := from_raw; core_sink := sink |}
       raws w = (Raise e, w')) ∧
  (∀ raw w, on_platform_messages a [raw] w = on_platform_message a raw w).
Proof.
  intros a. split_and!.
  - done.
  - intros sink raws w e w' Hm. unfold on_platform_messages, bind. simpl. by rewrite Hm.
  - intros raw w. unfold on_platform_messages, on_platform_message, _send_many. simpl.
    unfold InProcessCoreSink_send_many, InProcessCoreSink_send.
    apply for_each_mapM_singleton.
Qed.

Lemma swallow_no_exception (c : M unit) w e :
  fst (swallow c w) = Raise e → is_Exception e = false.
Proof.
  unfold swallow, try_except. destruct (c w) as [[[]|e0] w1]; simpl; [done|].
  destruct (is_Exception e0) eqn:Hx; simpl; [done|]. by intros [= <-].
Qed.

Lemma swallow_exception (c : M unit) w :
  (∀ e, fst (c w) = Raise e → is_Exception e = true) →
  swallow c w = (Ok (), snd (c w)).
Proof.
  intros Hx. unfold swallow, try_except, ret.
  destruct (c w) as [[[]|e] w1]; simpl in *; [done|]. by rewrite (Hx e).
Qed.

(** X19. In the WebSocket listen loop a frame that cannot be parsed,
    converted or handled is passed over and the loop goes on with the next
    one: the only instance of [Exception] the loop fails with is the one
    the iteration over the socket raises, and when parsing and handling
    fail with instances of [Exception] only, every frame is gone through
    and the loop ends as the iteration ends.  Once [_closed] is set the
    next frame ends the loop and is not handled. *)
Theorem ws_listen_loop_survives_bad_frames a parser frames ending w :
  let step := λ raw,
    (payload ⇐ lift (default (_default_ws_parser orjson_loads) parser raw);
     on_platform_message a payload) in
  (∀ e, fst (_ws_listen_loop orjson_loads a false parser frames ending w) = Raise e →
        is_Exception e = true → ending = Raise e) ∧
  ((∀ raw w0 e, raw ∈ frames → fst (step raw w0) = Raise e → is_Exception e = true) →
   _ws_listen_loop orjson_loads a false parser frames ending w =
     (ending, run_each (step <$> frames) w)) ∧
  (∀ raw rest,
     _ws_listen_loop orjson_loads a true parser (raw :: rest) ending w = (Ok (), w)).
Proof.
  intros step. split_and!.
  - revert w. induction frames as [|raw rest IH]; intros w e; simpl.
    + unfold lift. simpl. by intros ->.
    + unfold bind at 1.
      destruct (swallow _ w) as [[[]|e0] w1] eqn:Hs; simpl.
      * apply IH.
      * intros [= <-] Hx.
        assert (is_Exception e0 = false) as Hn
          by (eapply swallow_no_exception; by rewrite Hs).
        congruence.
  - unfold run_each. revert w. induction frames as [|raw rest IH]; intros w Hx.
    + done.
    + rewrite fmap_cons. cbn [foldl _ws_listen_loop]. unfold bind at 1.
      change (swallow _ w) with (swallow (step raw) w).
      rewrite swallow_exception by (intros e; apply Hx; left).
      apply IH. intros raw' w0 e Hin. apply Hx. by right.
  - done.
Qed.

(** X20. The default parser fails as the decoder fails; it returns the
    [payload] of a decoded mapping with [type] equal to ["message"] and a
    [payload] key, and every other decoded value, mapping or not, whole.
    What the default encoder writes is a frame of type ["send"]: decoded
    again, the default parser returns that frame whole and not the
    envelope, so the two defaults are not inverse to each other. *)
Theorem default_parser_and_encoder :
  (∀ raw e, orjson_loads raw = Raise e → _default_ws_parser orjson_loads raw = Raise e) ∧
  (∀ raw d p,
     orjson_loads raw = Ok (PDict d) →
     d !! "type" = Some (PStr "message") → d !! "payload" = Some p →
     _default_ws_parser orjson_loads raw = Ok p) ∧
  (∀ raw v,
     orjson_loads raw = Ok v →
     (∀ d, v = PDict d →
           d !! "type" ≠ Some (PStr "message") ∨ d !! "payload" = None) →
     _default_ws_parser orjson_loads raw = Ok v) ∧
  (∀ E data,
     _default_ws_encoder orjson_dumps E = Ok data →
     orjson_loads data = Ok (PDict {[ "type" := PStr "send"; "payload" := PDict E ]}) →
     _default_ws_parser orjson_loads data =
       Ok (PDict {[ "type" := PStr "send"; "payload" := PDict E ]})).
Proof.
  split_and!.
  - intros raw e Hl. unfold _default_ws_parser. by rewrite Hl.
  - intros raw d p Hl Ht Hp. unfold _default_ws_parser, dict_get. rewrite Hl. simpl.
    by rewrite Ht, Hp.
  - intros raw v Hl Hd. unfold _default_ws_parser, dict_get. rewrite Hl. simpl.
    destruct v as [| | | | | |d]; try done.
    destruct (Hd d eq_refl) as [Ht|Hp].
    + destruct (d !! "type") as [[| | |s| | |]|]; simpl; try done.
      unfold py_eq_str. simpl.
      rewrite bool_decide_false; [done|]. intros ->. done.
    + rewrite Hp. rewrite bool_decide_false by (by intros [? ?]).
      by rewrite andb_false_r.
  - intros E data _ Hl. unfold _default_ws_parser. by rewrite Hl.
Qed.

End adapter_properties.

(** *** The queue protocol *)

Lemma send_many_frames envs queue :
  ProcessCoreSink_send_many envs queue = queue ++ (incoming_frame <$> envs).
Proof.
  unfold ProcessCoreSink_send_many. revert queue.
  induction envs as [|E envs IH]; intros queue; simpl.
  - by rewrite app_nil_r.
  - rewrite IH. unfold ProcessCoreSink_send, queue_put. by rewrite <- app_assoc.
Qed.

Lemma push_outgoing_frames envs queue :
  foldl (λ q E, ProcessCoreSinkServer_push_outgoing E q) queue envs =
  queue ++ (outgoing_frame <$> envs).
Proof.
  revert queue. induction envs as [|E envs IH]; intros queue; simpl.
  - by rewrite app_nil_r.
  - rewrite IH. unfold ProcessCoreSinkServer_push_outgoing, queue_put.
    by rewrite <- app_assoc.
Qed.

Lemma consume_incoming_frames h envs w :
  (∀ v w0 e, fst (h v w0) = Raise e → is_Exception e = true) →
  _consume_incoming false h (incoming_frame <$> envs) w =
  (Ok Waiting, run_each ((λ E, h (PDict E)) <$> envs) w).
Proof.
  intros Hx. unfold run_each. revert w.
  induction envs as [|E envs IH]; intros w; [done|].
  rewrite !fmap_cons.
  change (_consume_incoming false h (incoming_frame E :: (incoming_frame <$> envs)) w)
    with ((_ ⇐ swallow (h (PDict E));
           _consume_incoming false h (incoming_frame <$> envs)) w).
  unfold bind. rewrite swallow_exception by apply Hx. by rewrite IH.
Qed.

Lemma listen_outgoing_frames h envs w :
  (∀ v w0 e, fst (h v w0) = Raise e → is_Exception e = true) →
  _listen_from_core false (Some h) (outgoing_frame <$> envs) w =
  (Ok Waiting, run_each ((λ E, h (PDict E)) <$> envs) w).
Proof.
  intros Hx. unfold run_each. revert w.
  induction envs as [|E envs IH]; intros w; [done|].
  rewrite !fmap_cons.
  change (_listen_from_core false (Some h) (outgoing_frame E :: (outgoing_frame <$> envs)) w)
    with ((_ ⇐ swallow (h (PDict E));
           _listen_from_core false (Some h) (outgoing_frame <$> envs)) w).
  unfold bind. rewrite swallow_exception by apply Hx. by rewrite IH.
Qed.

Lemma listen_outgoing_frames_no_handler envs w :
  _listen_from_core false None (outgoing_frame <$> envs) w = (Ok Waiting, w).
Proof.
  induction envs as [|E envs IH]; [done|].
  rewrite !fmap_cons.
  change (_listen_from_core false None (outgoing_frame E :: (outgoing_frame <$> envs)) w)
    with ((_ ⇐ ret (); _listen_from_core false None (outgoing_frame <$> envs)) w).
  unfold bind, ret. apply IH.
Qed.

(** X21. Adapter to core across processes: the envelopes given to
    [ProcessCoreSink.send_many] on an empty queue are handed to the core
    handler of [ProcessCoreSinkServer] one by one, in the order they were
    sent and as they were sent, whatever keys they hold; the consumer then
    waits for more.  The core handler may fail with instances of
    [Exception]: the envelopes after the one it failed on are handed
    over all the same. *)
Theorem process_sink_delivers_to_core h envs w :
  (∀ v w0 e, fst (h v w0) = Raise e → is_Exception e = true) →
  _consume_incoming false h (ProcessCoreSink_send_many envs []) w =
  (Ok Waiting, run_each ((λ E, h (PDict E)) <$> envs) w).
Proof.
  intros Hx. rewrite send_many_frames. simpl. by apply consume_incoming_frames.
Qed.

(** X22. Core to adapter across processes: the envelopes given to
    [ProcessCoreSinkServer.push_outgoing] are handed to the outgoing
    handler of [ProcessCoreSink] in the order they were pushed; with no
    outgoing handler set they are taken from the queue and dropped. *)
Theorem process_sink_delivers_to_adapter h envs w :
  (∀ v w0 e, fst (h v w0) = Raise e → is_Exception e = true) →
  let queue := foldl (λ q E, ProcessCoreSinkServer_push_outgoing E q) [] envs in
  _listen_from_core false (Some h) queue w =
    (Ok Waiting, run_each ((λ E, h (PDict E)) <$> envs) w) ∧
  _listen_from_core false None queue w = (Ok Waiting, w).
Proof.
  intros Hx queue. subst queue. rewrite push_outgoing_frames. simpl. split.
  - by apply listen_outgoing_frames.
  - apply listen_outgoing_frames_no_handler.
Qed.

Lemma consume_incoming_app closed h a b w :
  _consume_incoming closed h (a ++ b) w =
  match _consume_incoming closed h a w with
  | (Ok Waiting, w1) => _consume_incoming closed h b w1
  | other => other
  end.
Proof.
  revert w. induction a as [|item rest IH]; intros w.
  - simpl. destruct closed; [|done]. by destruct b.
  - simpl. destruct closed; [done|].
    destruct (dict_field_is item "__core_sink_control__" "stop"); [done|].
    destruct (dict_field_is item "kind" "incoming"); [|apply IH].
    unfold bind. destruct (swallow _ w) as [[[]|e] w1]; [apply IH|done].
Qed.

Lemma listen_from_core_app closed h a b w :
  _listen_from_core closed h (a ++ b) w =
  match _listen_from_core closed h a w with
  | (Ok Waiting, w1) => _listen_from_core closed h b w1
  | other => other
  end.
Proof.
  revert w. induction a as [|item rest IH]; intros w.
  - simpl. destruct closed; [|done]. by destruct b.
  - simpl. destruct closed; [done|].
    destruct (is_control_stop item); [done|].
    destruct (dict_field_is item "kind" "outgoing"); [|apply IH].
    unfold bind. destruct h as [handler|].
    + destruct (swallow _ w) as [[[]|e] w1]; [apply IH|done].
    + simpl. apply IH.
Qed.

(** X23. A consumer that has worked through the frames it found and waits
    goes on with the frames that come later as if it had found them all at
    once; a stop frame ends it for good: once the frames before the stop
    frame are worked through, the frames behind it are never looked at.
    This holds for both consumers, each with the stop frame the other
    side's [close] puts on its queue. *)
Theorem consumers_compose_and_stop h oh :
  (∀ a b w,
     _consume_incoming false h (a ++ b) w =
     match _consume_incoming false h a w with
     | (Ok Waiting, w1) => _consume_incoming false h b w1
     | other => other
     end) ∧
  (∀ a b w w1,
     _consume_incoming false h a w = (Ok Waiting, w1) →
     _consume_incoming false h
       (a ++ PDict {[ "__core_sink_control__" := PStr "stop" ]} :: b) w
     = (Ok Stopped, w1)) ∧
  (∀ a b w,
     _listen_from_core false oh (a ++ b) w =
     match _listen_from_core false oh a w with
     | (Ok Waiting, w1) => _listen_from_core false oh b w1
     | other => other
     end) ∧
  (∀ a b w w1,
     _listen_from_core false oh a w = (Ok Waiting, w1) →
     _listen_from_core false oh (a ++ _CONTROL_STOP :: b) w = (Ok Stopped, w1)).
Proof.
  split_and!.
  - intros a b w. apply consume_incoming_app.
  - intros a b w w1 Ha. by rewrite consume_incoming_app, Ha.
  - intros a b w. apply listen_from_core_app.
  - intros a b w w1 Ha. by rewrite listen_from_core_app, Ha.
Qed.

(** *** The reconnect loop *)

Lemma then_report_app l1 l2 r :
  then_report l1 (then_report l2 r) = then_report (l1 ++ l2) r.
Proof. unfold then_report. simpl. by rewrite app_assoc. Qed.

Lemma then_report_nil r : then_report [] r = r.
Proof. by destruct r. Qed.

Lemma exceeds_le (a m : nat) : (a ≤ m)%nat → exceeds a (Some (Z.of_nat m)) = false.
Proof. intros H. unfold exceeds. apply Z.ltb_ge. lia. Qed.

Lemma exceeds_gt (a m : nat) : (m < a)%nat → exceeds a (Some (Z.of_nat m)) = true.
Proof. intros H. unfold exceeds. apply Z.ltb_lt. lia. Qed.

Lemma connect_loop_failures_within max (k a : nat) script :
  exceeds (a + k) max = false →
  _ws_connect_loop max (replicate k plain_failure ++ script) false a =
  then_report (concat (replicate k [ActDial; ActSleep]))
    (_ws_connect_loop max script false (a + k)).
Proof.
  revert a. induction k as [|k IH]; intros a Hk.
  - simpl. by rewrite then_report_nil, Nat.add_0_r.
  - assert (exceeds (S a) max = false) as Hs.
    { destruct max as [m|]; [|done]. unfold exceeds in *.
      apply Z.ltb_ge. apply Z.ltb_ge in Hk. lia. }
    assert (a + S k = S a + k)%nat as Heq by lia.
    simpl. rewrite Hs. rewrite IH by (by rewrite <- Heq).
    rewrite then_report_app. simpl. by rewrite Heq.
Qed.

Lemma connect_loop_gives_up (m : nat) script :
  _ws_connect_loop (Some (Z.of_nat m)) (plain_failure :: script) false m =
  end_report [ActDial] GaveUp (S m).
Proof.
  assert (exceeds (S m) (Some (Z.of_nat m)) = true) as Hx by (apply exceeds_gt; lia).
  change (_ws_connect_loop (Some (Z.of_nat m)) (plain_failure :: script) false m)
    with (if exceeds (S m) (Some (Z.of_nat m))
          then end_report [ActDial] GaveUp (S m)
          else then_report [ActDial; ActSleep]
                 (_ws_connect_loop (Some (Z.of_nat m)) script false (S m))).
  by rewrite Hx.
Qed.

Lemma connect_loop_lost (m a : nat) script :
  (1 ≤ m)%nat →
  _ws_connect_loop (Some (Z.of_nat m)) (lost_connection :: script) false a =
  then_report [ActDial; ActSleep] (_ws_connect_loop (Some (Z.of_nat m)) script false 1).
Proof.
  intros Hm.
  assert (exceeds 1 (Some (Z.of_nat m)) = false) as Hx by (by apply exceeds_le).
  change (_ws_connect_loop (Some (Z.of_nat m)) (lost_connection :: script) false a)
    with (if exceeds 1 (Some (Z.of_nat m))
          then end_report [ActDial] GaveUp 1
          else then_report [ActDial; ActSleep]
                 (_ws_connect_loop (Some (Z.of_nat m)) script false 1)).
  by rewrite Hx.
Qed.

Lemma replicate_snoc {A} (n : nat) (x : A) : replicate (S n) x = replicate n x ++ [x].
Proof. induction n as [|n IH]; simpl; [done|]. by rewrite <- IH. Qed.

(** X24. With [max_reconnect_attempts] set to [m], not negative, and
    every dial failing, the reconnect loop dials [m + 1] times, sleeps
    [m] times in between, and gives up with the counter at [m + 1]; with
    a negative bound it gives up after the first dial, without sleeping. *)
Theorem reconnect_gives_up_after_bound :
  (∀ (m : nat) script,
     _ws_connect_loop (Some (Z.of_nat m))
       (replicate (S m) plain_failure ++ script) false 0 =
     {| actions := concat (replicate m [ActDial; ActSleep]) ++ [ActDial];
        status := GaveUp;
        reconnect_attempts := S m |}) ∧
  (∀ (z : Z) script,
     (z < 0)%Z →
     _ws_connect_loop (Some z) (plain_failure :: script) false 0 =
     {| actions := [ActDial]; status := GaveUp; reconnect_attempts := 1 |}).
Proof.
  split.
  - intros m script. rewrite replicate_snoc, <- app_assoc.
    rewrite connect_loop_failures_within by (by apply exceeds_le).
    simpl app. rewrite Nat.add_0_l, connect_loop_gives_up. done.
  - intros z script Hz.
    assert (exceeds 1 (Some z) = true) as Hx by (unfold exceeds; apply Z.ltb_lt; lia).
    change (_ws_connect_loop (Some z) (plain_failure :: script) false 0)
      with (if exceeds 1 (Some z)
            then end_report [ActDial] GaveUp 1
            else then_report [ActDial; ActSleep]
                   (_ws_connect_loop (Some z) script false 1)).
    by rewrite Hx.
Qed.

(** X25. With no bound on the attempts the reconnect loop never gives up:
    after any number of failed dials it has slept as many times and is
    about to dial again. *)
Theorem reconnect_without_bound_goes_on (k a : nat) :
  _ws_connect_loop None (replicate k plain_failure) false a =
  {| actions := concat (replicate k [ActDial; ActSleep]);
     status := Dialling;
     reconnect_attempts := a + k |}.
Proof.
  rewrite <- (app_nil_r (replicate k plain_failure)).
  rewrite connect_loop_failures_within by done.
  unfold then_report, end_report. simpl. by rewrite app_nil_r.
Qed.

(** X26. A connection that was made resets the count: when the bound is
    [m], at least one, and a connection is lost after [k] failed dials,
    [k] within the bound, the loop sleeps and goes on with the counter at
    one, whatever [k] was. *)
Theorem reconnect_count_restarts_after_connection (m k : nat) script :
  (1 ≤ m)%nat → (k ≤ m)%nat →
  _ws_connect_loop (Some (Z.of_nat m))
    (replicate k plain_failure ++ lost_connection :: script) false 0 =
  then_report (concat (replicate k [ActDial; ActSleep]) ++ [ActDial; ActSleep])
    (_ws_connect_loop (Some (Z.of_nat m)) script false 1).
Proof.
  intros Hm Hk. rewrite connect_loop_failures_within by (by apply exceeds_le).
  rewrite connect_loop_lost by done. by rewrite then_report_app.
Qed.

(** *** Shutdown of the queue protocol *)

(** X27. [ProcessCoreSinkServer.close] sets the flag and puts one stop
    frame on each queue; a second [close] changes nothing.  The stop frame
    on the outgoing queue comes behind the envelopes pushed before: the
    listener on the adapter side hands those to its outgoing handler, in
    order, then leaves its loop and looks at nothing that is put on the
    queue later.  A consumer whose own flag is set handles no frame at
    all. *)
Theorem server_close_stops_the_listener h envs later items w :
  (∀ v w0 e, fst (h v w0) = Raise e → is_Exception e = true) →
  let pushed := foldl (λ q E, ProcessCoreSinkServer_push_outgoing E q) [] envs in
  let '(closed, incoming_queue, outgoing_queue) :=
    ProcessCoreSinkServer_close false [] pushed in
  closed = true ∧
  ProcessCoreSinkServer_close closed incoming_queue outgoing_queue
    = (closed, incoming_queue, outgoing_queue) ∧
  _listen_from_core false (Some h) (outgoing_queue ++ later) w =
    (Ok Stopped, run_each ((λ E, h (PDict E)) <$> envs) w) ∧
  _consume_incoming false h (incoming_queue ++ later) w = (Ok Stopped, w) ∧
  _consume_incoming closed h items w = (Ok Stopped, w) ∧
  _listen_from_core closed (Some h) items w = (Ok Stopped, w).
Proof.
  intros Hx pushed. subst pushed. rewrite push_outgoing_frames. simpl.
  split_and!; try done.
  - unfold queue_put. rewrite <- app_assoc. rewrite listen_from_core_app.
    by rewrite listen_outgoing_frames.
  - by destruct items.
  - by destruct items.
Qed.

(** *** The [route] decorator *)

(** X28. [route] on a plain function cannot fail: it appends one generic
    route, which comes last among the generic candidates, and leaves the
    priority candidates of every envelope as they were; on a function that
    looks like a method it registers nothing and returns the descriptor,
    which carries no message type. *)
Theorem route_decorator_registers_generic predicate_ n func rt :
  if looks_like_method func then
    ∃ d, route predicate_ n func rt = (Ok (Some d), rt) ∧
         _message_type d = MtNone ∧ _predicate d = predicate_ ∧ _func d = func
  else
    ∃ r rt',
      route predicate_ n func rt = (Ok None, rt') ∧
      _routes rt' = _routes rt ++ [r] ∧
      predicate r = predicate_ ∧ handler r = func ∧ name r = n ∧
      normal_candidates rt' = normal_candidates rt ++ [r] ∧
      (∀ E, priority_candidates rt' E = priority_candidates rt E) ∧
      _explicit_type_handlers rt' = _explicit_type_handlers rt.
Proof.
  unfold route. destruct (looks_like_method func).
  - eexists. split_and!; reflexivity.
  - rewrite add_route_none. eexists _, _. split_and!; try reflexivity.
    unfold normal_candidates. simpl. rewrite filter_app, filter_cons.
    by rewrite decide_True.
Qed.

End runtime.

(** ** Concrete runs *)

(** C1, counterexample: a route registered for the empty type string has a
    truthy predicate on an envelope whose segment type is the empty string,
    and the matcher
    returns the generic route. *)
Lemma match_route_empty_type_returns_generic :
  let rt := rt_empty_type (W:=list string) order log in
  ∃ r g, _routes rt !! 0%nat = Some r ∧
         _extract_segment_type env_empty_type = PStr EmptyString ∧
         holds_type r EmptyString ∧ yields_truthy env_empty_type r ∧
         _match_route rt env_empty_type = Ok (Some g) ∧ is_generic g = true.
Proof.
  intros rt. eexists _, _. split_and!.
  - reflexivity.
  - reflexivity.
  - eexists. split; [reflexivity|]. apply list_elem_of_here.
  - eexists. split; reflexivity.
  - reflexivity.
  - reflexivity.
Qed.

Lemma match_route_priority_shadows_generic_witness :
  let rt := rt_text (W:=list string) order log in
  let E := env_text in
  reachable order rt ∧
  priority_candidates rt E = Ok (_routes rt) ∧
  ((∀ r, priority_for rt E r → yields_truthy E r →
      match _match_route rt E with
      | Ok (Some r') =>
          priority_for rt E r' ∧ is_generic r' = false ∧ yields_truthy E r'
      | Ok None => False
      | Raise e => ∃ c, priority_for rt E c ∧ predicate c E = Raise e
      end) ∧
   (∀ g, _match_route rt E = Ok (Some g) → is_generic g = true →
      ∀ c, priority_for rt E c → yields_falsy E c)).
Proof.
  intros rt E.
  assert (reachable order rt) as Hr.
  { unfold rt, rt_text. apply reach_add_route, reach_init. }
  assert (priority_candidates rt E = Ok (_routes rt)) as Hc by reflexivity.
  split; [exact Hr|]. split; [exact Hc|].
  exact (match_route_priority_shadows_generic order rt E (_routes rt) Hr Hc).
Defined.

Lemma add_route_collision_keeps_earlier_claims_witness :
  (∀ l, order l ≡ₚ remove_dups l) ∧
  let call := add_route (W:=list string) order always (tracing_handler log "handler2")
                (Some "handler2") (MtList ["image"; "text"]) None in
  (∃ msg, fst (call (rt_text order log)) = Raise (ValueError msg)) ∧
  (∃ msg, fst (call (rt_image order log)) = Raise (ValueError msg)) ∧
  ((_explicit_type_handlers (rt_text order log) !! "image" = None ∧
    _explicit_type_handlers (snd (call (rt_text order log))) !! "image"
      = Some "handler2") ∨
   (_explicit_type_handlers (rt_image order log) !! "text" = None ∧
    _explicit_type_handlers (snd (call (rt_image order log))) !! "text"
      = Some "handler2")).
Proof.
  assert (∀ l, order l ≡ₚ remove_dups l) as Hp by (intros l; reflexivity).
  split; [exact Hp|].
  exact (add_route_collision_keeps_earlier_claims order Hp log).
Defined.

(** With first-occurrence order it is the runtime owning ["text"] that is
    left with ["image"] claimed by the handler that was turned down. *)
Lemma add_route_collision_first_occurrence_order :
  let res := add_route (W:=list string) order always (tracing_handler log "handler2")
               (Some "handler2") (MtList ["image"; "text"]) None (rt_text order log) in
  (∃ msg, fst res = Raise (ValueError msg)) ∧
  _routes (snd res) = _routes (rt_text order log) ∧
  _explicit_type_handlers (rt_text order log) !! "image" = None ∧
  _explicit_type_handlers (snd res) !! "image" = Some "handler2".
Proof. split_and!; [eexists|..]; reflexivity. Qed.

(** After that failed call ["image"] can no longer be registered: the
    error names [handler2], which owns no route. *)
Lemma add_route_after_failed_collision :
  let rt' := snd (add_route (W:=list string) order always (tracing_handler log "handler2")
                    (Some "handler2") (MtList ["image"; "text"]) None
                    (rt_text order log)) in
  add_route order always (tracing_handler log "handler3") (Some "handler3")
    (MtStr "image") None rt'
  = (Raise (duplicate_type_error "image" "handler2" "handler3"), rt') ∧
  handler_display ∘ handler <$> _routes rt' = ["handler1"].
Proof. split; reflexivity. Qed.



(** On the runtime where ["text"] is owned by [handler1]: ["image"] is
    registered and owned from then on, ["text"] is turned down. *)
Lemma add_route_registers_unless_owned :
  let rt := rt_text (W:=list string) order log in
  let h := tracing_handler (W:=list string) log "h" in
  (∃ rt', add_route order always h None (MtStr "image") None rt = (Ok (), rt') ∧
          (handler_display ∘ handler <$> _routes rt') = ["handler1"; "h"] ∧
          _explicit_type_handlers rt' !! "image" = Some "h") ∧
  add_route order always h None (MtList ["image"; "text"]) None
    (snd (add_route order always h None (MtStr "video") None rt))
  = (Raise (duplicate_type_error "text" "handler1" "h"),
     set_owners (<["image" := "h"]> (<["video" := "h"]> (_explicit_type_handlers rt)))
       (snd (add_route order always h None (MtStr "video") None rt))).
Proof. split; [eexists; split_and!; reflexivity|reflexivity]. Qed.

(** C3, counterexample: the handler raises, the error-hook raises in its
    turn, and [handle_message] fails with the exception of the error-hook,
    not with a [MessageProcessingError]. *)
Lemma handle_message_error_hook_failure_not_wrapped :
  let rt := rt_failing_error_hook (W:=list string) order log in
  dispatch rt ∅ [] = (Raise (ValueError "boom"), ["handler"]) ∧
  handle_message repr by_turns rt ∅ [] = (Raise (UserException "hook failed"), ["handler"]).
Proof. split; reflexivity. Qed.

Lemma handle_message_wraps_failure_witness :
  let rt := rt_recording_error_hook (W:=list string) order log in
  let E : envelope := {[ "id" := PStr "test_id_123" ]} in
  let exc := ValueError "boom" in
  let error_tasks := (λ hook, hook E exc) <$> _error_hooks rt in
  let wrapped :=
    MessageProcessingError E exc
      ("处理消息 " +:+ py_str repr (dict_get E "id" (PStr "<unknown>"))
       +:+ " 时出错: " +:+ exn_str exc)
      (Some exc) in
  _run_hooks by_turns (_before_hooks rt) E [] = (Ok (), []) ∧
  dispatch rt E [] = (Raise exc, ["handler"]) ∧
  is_Exception exc = true ∧
  (∀ hook, hook ∈ _error_hooks rt → never_raises (hook E exc)) ∧
  ∃ w3, runs_all error_tasks ["handler"] w3 ∧
        handle_message repr by_turns rt E [] = (Raise wrapped, w3).
Proof.
  intros rt E exc error_tasks wrapped.
  assert (_run_hooks by_turns (_before_hooks rt) E [] = (Ok (), [])) as H1 by reflexivity.
  assert (dispatch rt E [] = (Raise exc, ["handler"])) as H2 by reflexivity.
  assert (is_Exception exc = true) as H3 by reflexivity.
  assert (∀ hook, hook ∈ _error_hooks rt → never_raises (hook E exc)) as H4.
  { intros hook ->%list_elem_of_singleton e [w0 He]. exact He. }
  refine (conj H1 (conj H2 (conj H3 (conj H4 _)))).
  exact (proj2 (handle_message_wraps_failure repr by_turns rt E [] [] exc ["handler"]
                  H1 H2 H3) H4).
Defined.

(** The text of the error and the trace of that run. *)
Lemma wrapped_failure_run :
  let rt := rt_recording_error_hook (W:=list string) order log in
  let E : envelope := {[ "id" := PStr "test_id_123" ]} in
  handle_message repr by_turns rt E [] =
    (Raise (MessageProcessingError E (ValueError "boom")
              "处理消息 test_id_123 时出错: boom" (Some (ValueError "boom"))),
     ["handler"; "error_hook"]) ∧
  fst (handle_message repr by_turns rt ∅ []) =
    Raise (MessageProcessingError ∅ (ValueError "boom")
             "处理消息 <unknown> 时出错: boom" (Some (ValueError "boom"))).
Proof. split; reflexivity. Qed.

Lemma middleware_chain_onion_witness :
  let rt := rt_two_middlewares (W:=list string) order log in
  let route := {| route_id := 0; predicate := always;
                  handler := tracing_handler log "handler"; name := None;
                  message_type := None; message_types := None;
                  event_types := None |} in
  let layers := [tracing_layer log "m1"; tracing_layer log "m2"] in
  let E := env_text in
  _match_route rt E = Ok (Some route) ∧
  _middlewares rt = (λ layer, onion_middleware layer.1 layer.2) <$> layers ∧
  (_wrap_with_middlewares rt (handler route) =
     foldr (λ (mw : Middleware) (next : MiddlewareCallable), (λ msg, mw msg next))
           (base_handler (handler route)) (_middlewares rt) ∧
   dispatch rt E [] =
     bind (pipeline (fst <$> layers) E)
       (λ msg, bind (handler_call (handler route) msg)
          (λ result, bind (pipeline (rev (snd <$> layers)) result)
             (λ result', ret (Some result')))) []).
Proof.
  intros rt route layers E.
  assert (_match_route rt E = Ok (Some route)) as H1 by reflexivity.
  assert (_middlewares rt = (λ layer, onion_middleware layer.1 layer.2) <$> layers)
    as H2 by reflexivity.
  split_and!; [exact H1|exact H2|..];
    apply (middleware_chain_onion rt route E [] layers H1 H2).
Defined.

(** The trace of the onion: [m1], [m2], the handler, [m2], [m1]. *)
Lemma middleware_chain_trace :
  snd (handle_message repr by_turns (rt_two_middlewares (W:=list string) order log) env_text [])
  = ["m1_before"; "m2_before"; "handler"; "m2_after"; "m1_after"].
Proof. reflexivity. Qed.

(** C5, counterexample: [message_segment] is present and empty, and the
    type is read from [message_chain]. *)
Lemma extract_segment_type_empty_segment_reads_chain :
  let E : envelope :=
    {[ "message_segment" := PDict ∅;
       "message_chain" := PList [PDict {[ "type" := PStr "image" ]}] ]} in
  E !! "message_segment" = Some (PDict ∅) ∧
  _extract_segment_type E = PStr "image" ∧
  spec_extract_segment_type E = PNone.
Proof. split_and!; reflexivity. Qed.

Lemma extract_segment_type_amended_witness :
  let E : envelope :=
    {[ "message_segment" := PDict ∅;
       "message_chain" := PList [PDict {[ "type" := PStr "image" ]}] ]} in
  truthy (dict_get E "message_segment" PNone) = false ∧
  _extract_segment_type E = segment_type_of (dict_get E "message_chain" PNone).
Proof.
  intros E.
  assert (truthy (dict_get E "message_segment" PNone) = false) as H by reflexivity.
  split; [exact H|].
  exact (proj1 (proj2 (extract_segment_type_amended E)) H).
Defined.

Lemma handle_batch_spec_witness :
  let rt := rt_text (W:=list string) order log in
  _batch_handler rt = None ∧
  handle_batch repr by_turns rt [env_text; ∅; env_text] [] =
    bind (mapM (handle_message repr by_turns rt) [env_text; ∅; env_text])
      (λ rs, ret (PList (filter not_none rs))) [].
Proof.
  intros rt.
  assert (_batch_handler rt = None) as H by reflexivity.
  split; [exact H|].
  exact (proj2 (proj2 (handle_batch_spec repr by_turns rt)) [env_text; ∅; env_text] [] H).
Defined.

(** A batch of three envelopes, the second of which matches no route. *)
Lemma handle_batch_run :
  handle_batch repr by_turns (rt_text (W:=list string) order log) [env_text; ∅; env_text] []
  = (Ok (PList [PDict env_text; PDict env_text]), ["handler1"; "handler1"]).
Proof. reflexivity. Qed.

Lemma on_outgoing_from_core_spec_witness :
  let self := recording_adapter (W:=list string) log "qq" in
  let E : envelope := {[ "message_info" := PDict {[ "platform" := PStr "discord" ]} ]} in
  message_info_typed E ∧
  ((∀ tag, carried_tag E = Some tag → tag ≠ PStr (platform self) →
      _on_outgoing_from_core self E [] = (Ok (), [])) ∧
   (carried_tag E = None ∨ carried_tag E = Some (PStr (platform self)) →
      _on_outgoing_from_core self E [] = _send_platform_message self E [])).
Proof.
  intros self E.
  assert (message_info_typed E) as H by (vm_compute; exact I).
  split; [exact H|].
  exact (on_outgoing_from_core_spec self E [] H).
Defined.

(** The bridge of the adapter for ["qq"]: a mismatching tag is dropped, a
    matching tag and no tag are sent. *)
Lemma on_outgoing_from_core_runs :
  let self := recording_adapter (W:=list string) log "qq" in
  _on_outgoing_from_core self {[ "platform" := PStr "discord" ]} [] = (Ok (), []) ∧
  _on_outgoing_from_core self {[ "platform" := PStr "qq" ]} [] = (Ok (), ["sent"]) ∧
  _on_outgoing_from_core self ∅ [] = (Ok (), ["sent"]).
Proof. split_and!; reflexivity. Qed.


(** A route scoped to ["qq"] fires on an envelope without platform
    information and not on one tagged ["discord"]. *)
Lemma on_message_platform_filter_runs :
  let rt := snd (on_message (W:=list string) order (tracing_handler log "h")
                   (MtStr "text") (Some "qq") None None MessageRuntime_init) in
  no_platform_info env_text ∧ type_test_passes (Some ["text"]) env_text ∧
  (∃ r, _routes rt = [r] ∧
        predicate r env_text = Ok (PBool true) ∧
        predicate r (<["platform" := PStr "discord"]> env_text) = Ok (PBool false)) ∧
  handle_message repr by_turns rt env_text [] = (Ok (PDict env_text), ["h"]) ∧
  handle_message repr by_turns rt (<["platform" := PStr "discord"]> env_text) []
    = (Ok PNone, []).
Proof.
  split_and!.
  - split; [reflexivity|]. by left.
  - exists "text". split; [reflexivity|]. apply list_elem_of_here.
  - eexists. split_and!; reflexivity.
  - reflexivity.
  - reflexivity.
Qed.

Lemma handle_message_before_hook_failure_witness :
  let rt := rt_failing_before_hook (W:=list string) order log in
  let hook := failing_hook (W:=list string) log "before" (UserException "before failed") in
  hook ∈ _before_hooks rt ∧ always_raises (hook env_text) ∧
  ∃ e w1,
    _run_hooks by_turns (_before_hooks rt) env_text [] = (Raise e, w1) ∧
    handle_message repr by_turns rt env_text [] = (Raise e, w1) ∧
    (∃ hook', hook' ∈ _before_hooks rt ∧ may_raise (hook' env_text) e) ∧
    ((∀ hook', hook' ∈ _before_hooks rt →
               (∃ e', may_raise (hook' env_text) e') → hook' = hook) →
     may_raise (hook env_text) e).
Proof.
  intros rt hook.
  assert (hook ∈ _before_hooks rt) as H1 by apply list_elem_of_here.
  assert (always_raises (hook env_text)) as H2 by (intros w; exact I).
  refine (conj H1 (conj H2 _)).
  exact (proj1 (proj2 (handle_message_before_hook_failure repr by_turns rt env_text []))
           hook H1 H2).
Defined.

(** The run of that runtime: the exception is the one of the before-hook,
    and the handler and the error-hook have not run. *)
Lemma handle_message_before_hook_failure_run :
  handle_message repr by_turns (rt_failing_before_hook (W:=list string) order log)
    env_text []
  = (Raise (UserException "before failed"), ["before"]).
Proof. reflexivity. Qed.

(** A before-hook that is suspended between two things it records, next
    to one that raises: the exception is propagated with the first hook
    half-way, or once it has ended, as the loop takes them; the handler
    runs in neither case. *)
Lemma handle_message_before_hooks_interleaved :
  let rt := register_before_hook (failing_hook log "failing" (UserException "no"))
              (register_before_hook (slow_hook log "slow")
                 (rt_text (W:=list string) order log)) in
  handle_message repr (λ _, [0; 1]%nat) rt env_text []
    = (Raise (UserException "no"), ["slow_begin"; "failing"]) ∧
  handle_message repr (λ _, [0; 1; 0]%nat) rt env_text []
    = (Raise (UserException "no"), ["slow_begin"; "failing"; "slow_end"]) ∧
  handle_message repr (λ _, [1]%nat) rt env_text []
    = (Raise (UserException "no"), ["failing"]).
Proof. split_and!; reflexivity. Qed.

(** *** Runs of the further properties *)

Lemma explicit_type_has_one_route_witness :
  let rt := rt_text (W:=list string) order log in
  let r := {| route_id := 0; predicate := always;
              handler := tracing_handler log "handler1"; name := Some "handler1";
              message_type := Some "text"; message_types := Some ["text"];
              event_types := None |} in
  reachable order rt ∧ r ∈ _routes rt ∧ holds_type r "text" ∧
  (r = r ∧
   _explicit_type_handlers rt !! "text" = Some (handler_name_of (name r) (handler r))).
Proof.
  intros rt r.
  assert (reachable order rt) as Hr.
  { unfold rt, rt_text. apply reach_add_route, reach_init. }
  assert (r ∈ _routes rt) as Hin by apply list_elem_of_here.
  assert (holds_type r "text") as Ht.
  { eexists. split; [reflexivity|]. apply list_elem_of_here. }
  refine (conj Hr (conj Hin (conj Ht _))).
  exact (explicit_type_has_one_route order rt r r "text" Hr Hin Hin Ht Ht).
Defined.

Lemma add_route_event_types_append_witness :
  let p : Predicate := always in
  let h := tracing_handler (W:=list string) log "on_notice" in
  let events := ["notice"; "message"; "notice"] in
  let rt := rt_text (W:=list string) order log in
  let rt' := insert_route order p h None None None (Some events) rt in
  (∀ l, order l ≡ₚ remove_dups l) ∧
  ∃ r,
    add_route order p h None MtNone (Some events) rt = (Ok (), rt') ∧
    _routes rt' = _routes rt ++ [r] ∧
    is_generic r = false ∧
    (∀ e, e ∈ events →
       _event_routes rt' !! e = Some (default [] (_event_routes rt !! e) ++ [r])) ∧
    (∀ e, e ∉ events → _event_routes rt' !! e = _event_routes rt !! e) ∧
    _type_routes rt' = _type_routes rt ∧
    _explicit_type_handlers rt' = _explicit_type_handlers rt.
Proof.
  intros p h events rt rt'.
  assert (∀ l, order l ≡ₚ remove_dups l) as Hp by (intros l; reflexivity).
  split; [exact Hp|].
  exact (add_route_event_types_append order Hp p h None events rt).
Defined.

Lemma match_route_first_truthy_witness :
  let rt := rt_never_then_always (W:=list string) order log in
  let first := {| route_id := 0; predicate := never;
                  handler := tracing_handler log "first"; name := None;
                  message_type := None; message_types := None;
                  event_types := None |} in
  let second := {| route_id := 1; predicate := always;
                   handler := tracing_handler log "second"; name := None;
                   message_type := None; message_types := None;
                   event_types := None |} in
  let E := env_text in
  reachable order rt ∧
  priority_candidates rt E = Ok [] ∧
  [] ++ normal_candidates rt = [first] ++ second :: [] ∧
  (∀ c, c ∈ [first] → yields_falsy E c) ∧
  yields_truthy E second ∧
  _match_route rt E = Ok (Some second).
Proof.
  intros rt first second E.
  assert (reachable order rt) as Hr.
  { unfold rt, rt_never_then_always. apply reach_add_route, reach_add_route, reach_init. }
  assert (priority_candidates rt E = Ok []) as Hc by reflexivity.
  assert ([] ++ normal_candidates rt = [first] ++ second :: []) as Hs by reflexivity.
  assert (∀ c, c ∈ [first] → yields_falsy E c) as Hf.
  { intros c ->%list_elem_of_singleton. eexists. split; reflexivity. }
  assert (yields_truthy E second) as Ht by (eexists; split; reflexivity).
  refine (conj Hr (conj Hc (conj Hs (conj Hf (conj Ht _))))).
  exact (match_route_first_truthy order rt E [] [first] second [] Hr Hc Hs Hf Ht).
Defined.

Lemma match_route_outcomes_witness :
  let rt := rt_never_then_always (W:=list string) order log in
  let E := env_text in
  let cands : list MessageRoute := [] in
  reachable order rt ∧
  priority_candidates rt E = Ok cands ∧
  ((∀ r, _match_route rt E = Ok (Some r) →
      r ∈ _routes rt ∧ r ∈ cands ++ normal_candidates rt ∧ yields_truthy E r) ∧
   (_match_route rt E = Ok None ↔
      ∀ c, c ∈ cands ++ normal_candidates rt → yields_falsy E c) ∧
   (∀ e, _match_route rt E = Raise e →
      ∃ c, c ∈ cands ++ normal_candidates rt ∧ predicate c E = Raise e)).
Proof.
  intros rt E cands.
  assert (reachable order rt) as Hr.
  { unfold rt, rt_never_then_always. apply reach_add_route, reach_add_route, reach_init. }
  assert (priority_candidates rt E = Ok cands) as Hc by reflexivity.
  split; [exact Hr|]. split; [exact Hc|].
  exact (match_route_outcomes order rt E cands Hr Hc).
Defined.

Lemma empty_type_list_route_never_matches_witness :
  let rt := rt_empty_type_list (W:=list string) order log in
  let r := {| route_id := 0; predicate := always;
              handler := tracing_handler log "handler"; name := None;
              message_type := None; message_types := Some [];
              event_types := None |} in
  reachable order rt ∧ r ∈ _routes rt ∧ message_types r = Some [] ∧
  (event_types r = None ∨ event_types r = Some []) ∧
  _match_route rt env_text ≠ Ok (Some r).
Proof.
  intros rt r.
  assert (reachable order rt) as Hr.
  { unfold rt, rt_empty_type_list. apply reach_add_route, reach_init. }
  assert (r ∈ _routes rt) as Hin by apply list_elem_of_here.
  assert (message_types r = Some []) as Hty by reflexivity.
  assert (event_types r = None ∨ event_types r = Some []) as Hev by (left; reflexivity).
  refine (conj Hr (conj Hin (conj Hty (conj Hev _)))).
  exact (empty_type_list_route_never_matches order rt r env_text Hr Hin Hty Hev).
Defined.

Lemma handle_message_no_match_witness :
  let rt := rt_text (W:=list string) order log in
  let E : envelope := {[ "message_segment" := PDict {[ "type" := PStr "image" ]} ]} in
  _run_hooks by_turns (_before_hooks rt) E [] = (Ok (), []) ∧
  _match_route rt E = Ok None ∧
  handle_message repr by_turns rt E [] = (Ok PNone, []).
Proof.
  intros rt E.
  assert (_run_hooks by_turns (_before_hooks rt) E [] = (Ok (), [])) as H1 by reflexivity.
  assert (_match_route rt E = Ok None) as H2 by reflexivity.
  refine (conj H1 (conj H2 _)).
  exact (handle_message_no_match repr by_turns rt E [] [] H1 H2).
Defined.

Lemma handle_message_success_witness :
  let rt := register_after_hook (recording_hook log "after")
              (rt_two_middlewares (W:=list string) order log) in
  let route := {| route_id := 0; predicate := always;
                  handler := tracing_handler log "handler"; name := None;
                  message_type := None; message_types := None;
                  event_types := None |} in
  let E := env_text in
  let w2 := ["m1_before"; "m2_before"; "handler"; "m2_after"; "m1_after"] in
  _run_hooks by_turns (_before_hooks rt) E [] = (Ok (), []) ∧
  _match_route rt E = Ok (Some route) ∧
  _wrap_with_middlewares rt (handler route) E [] = (Ok (PDict E), w2) ∧
  runs_all ((λ hook, hook E) <$> _after_hooks rt) w2 (w2 ++ ["after"]) ∧
  handle_message repr by_turns rt E [] = (Ok (PDict E), w2 ++ ["after"]).
Proof.
  intros rt route E w2.
  assert (_run_hooks by_turns (_before_hooks rt) E [] = (Ok (), [])) as H1 by reflexivity.
  assert (_match_route rt E = Ok (Some route)) as H2 by reflexivity.
  assert (_wrap_with_middlewares rt (handler route) E [] = (Ok (PDict E), w2))
    as H3 by reflexivity.
  refine (conj H1 (conj H2 (conj H3 _))).
  exact (proj1 (handle_message_success repr by_turns rt E [] [] route (PDict E) w2
                  H1 H2 H3)).
Defined.

Lemma handle_message_base_exception_unwrapped_witness :
  let rt := rt_cancelled (W:=list string) order log in
  let exc := BaseOnly "cancelled" in
  _run_hooks by_turns (_before_hooks rt) env_text [] = (Ok (), []) ∧
  dispatch rt env_text [] = (Raise exc, ["handler"]) ∧
  is_Exception exc = false ∧
  handle_message repr by_turns rt env_text [] = (Raise exc, ["handler"]).
Proof.
  intros rt exc.
  assert (_run_hooks by_turns (_before_hooks rt) env_text [] = (Ok (), [])) as H1 by reflexivity.
  assert (dispatch rt env_text [] = (Raise exc, ["handler"])) as H2 by reflexivity.
  assert (is_Exception exc = false) as H3 by reflexivity.
  refine (conj H1 (conj H2 (conj H3 _))).
  exact (handle_message_base_exception_unwrapped repr by_turns rt env_text [] [] exc
           ["handler"] H1 H2 H3).
Defined.

Lemma handle_message_error_hook_exception_wins_witness :
  let rt := rt_failing_error_hook (W:=list string) order log in
  let E := env_text in
  let exc := ValueError "boom" in
  let hook := failing_error_hook (W:=list string) (UserException "hook failed") in
  _run_hooks by_turns (_before_hooks rt) E [] = (Ok (), []) ∧
  dispatch rt E [] = (Raise exc, ["handler"]) ∧
  is_Exception exc = true ∧
  hook ∈ _error_hooks rt ∧ always_raises (hook E exc) ∧
  ∃ e w3,
    _run_error_hooks by_turns rt E exc ["handler"] = (Raise e, w3) ∧
    handle_message repr by_turns rt E [] = (Raise e, w3) ∧
    ∃ hook', hook' ∈ _error_hooks rt ∧ may_raise (hook' E exc) e.
Proof.
  intros rt E exc hook.
  assert (_run_hooks by_turns (_before_hooks rt) E [] = (Ok (), [])) as H1 by reflexivity.
  assert (dispatch rt E [] = (Raise exc, ["handler"])) as H2 by reflexivity.
  assert (is_Exception exc = true) as H3 by reflexivity.
  assert (hook ∈ _error_hooks rt) as H4 by apply list_elem_of_here.
  assert (always_raises (hook E exc)) as H5 by (intros w; exact I).
  refine (conj H1 (conj H2 (conj H3 (conj H4 (conj H5 _))))).
  exact (handle_message_error_hook_exception_wins repr by_turns rt E [] [] exc
           ["handler"] hook H1 H2 H3 H4 H5).
Defined.

Lemma handle_batch_stops_at_first_failure_witness :
  let rt := rt_text_or_fail (W:=list string) order log in
  let x : envelope := {[ "id" := PStr "2" ]} in
  let e := MessageProcessingError x (ValueError "boom") "处理消息 2 时出错: boom"
             (Some (ValueError "boom")) in
  _batch_handler rt = None ∧
  mapM (handle_message repr by_turns rt) [env_text] [] = (Ok [PDict env_text], ["handler1"]) ∧
  handle_message repr by_turns rt x ["handler1"] = (Raise e, ["handler1"; "fallback"]) ∧
  handle_batch repr by_turns rt ([env_text] ++ x :: [env_text]) [] =
    (Raise e, ["handler1"; "fallback"]).
Proof.
  intros rt x e.
  assert (_batch_handler rt = None) as H1 by reflexivity.
  assert (mapM (handle_message repr by_turns rt) [env_text] [] =
          (Ok [PDict env_text], ["handler1"])) as H2 by reflexivity.
  assert (handle_message repr by_turns rt x ["handler1"] = (Raise e, ["handler1"; "fallback"]))
    as H3 by reflexivity.
  refine (conj H1 (conj H2 (conj H3 _))).
  exact (handle_batch_stops_at_first_failure repr by_turns rt [env_text] x [env_text] []
           [PDict env_text] ["handler1"] e ["handler1"; "fallback"] H1 H2 H3).
Defined.

Lemma platform_filter_decides_witness :
  let E : envelope := {[ "platform" := PStr "discord";
                         "message_info" := PDict {[ "platform" := PStr "qq" ]} ]} in
  message_info_typed E ∧
  combined_predicate None (Some "qq") None E =
  combined_predicate None None
    (if (if is_none (info_platform_of E)
         then in_none_or "qq" (dict_get E "platform" PNone)
         else py_eq_str (info_platform_of E) "qq")
     then None else Some never) E.
Proof.
  intros E.
  assert (message_info_typed E) as H by (vm_compute; exact I).
  split; [exact H|].
  exact (platform_filter_decides None "qq" None E H).
Defined.

Lemma type_filter_rejects_first_witness :
  let types := ["image"] in
  let E : envelope :=
    {[ "message_segment" :=
         PDict {[ "type" := PTuple [PStr "a"; PTuple [PInt 1; PList [PStr "b"]];
                                    PDict ∅] ]} ]} in
  (∀ t, _extract_segment_type E = PStr t → t ∉ types) ∧
  combined_predicate (Some types) (Some "qq") (Some always) E =
  match unhashable_part (_extract_segment_type E) with
  | None => Ok (PBool false)
  | Some part => Raise (TypeError ("unhashable type: '" +:+ type_name part +:+ "'"))
  end.
Proof.
  intros types E.
  assert (∀ t, _extract_segment_type E = PStr t → t ∉ types) as H.
  { intros t Ht. vm_compute in Ht. discriminate Ht. }
  split; [exact H|].
  exact (type_filter_rejects_first types (Some "qq") (Some always) E H).
Defined.

(** The error names the list inside the tuple; a segment type that is a
    string of another type, or a tuple of hashable values, is turned down
    with [False]. *)
Lemma type_filter_runs :
  let seg (v : pyval) : envelope := {[ "message_segment" := PDict {[ "type" := v ]} ]} in
  combined_predicate (Some ["image"]) None None
    (seg (PTuple [PStr "a"; PTuple [PInt 1; PList [PStr "b"]]; PDict ∅]))
    = Raise (TypeError "unhashable type: 'list'") ∧
  combined_predicate (Some ["image"]) None None (seg (PDict ∅))
    = Raise (TypeError "unhashable type: 'dict'") ∧
  combined_predicate (Some ["image"]) None None (seg (PTuple [PStr "a"; PInt 1]))
    = Ok (PBool false) ∧
  combined_predicate (Some ["image"]) None None (seg (PStr "text")) = Ok (PBool false) ∧
  combined_predicate (Some ["image"]) None None (seg (PStr "image")) = Ok (PBool true).
Proof. split_and!; reflexivity. Qed.

Lemma register_instance_idempotent_witness :
  let d := {| _func := on_text (W:=list string); _predicate := always;
              _name := None; _message_type := MtStr "text" |} in
  let body := on_text_of (W:=list string) log in
  let call := _register_instance order d body 1 ∅ MessageRuntime_init in
  call = (Ok (), (call.2.1, call.2.2)) ∧
  ((1%nat ∈ call.2.1) ∧
   _register_instance order d body 1 call.2.1 call.2.2 = (Ok (), (call.2.1, call.2.2))).
Proof.
  intros d body call.
  assert (call = (Ok (), (call.2.1, call.2.2))) as H by reflexivity.
  split; [exact H|].
  exact (register_instance_idempotent order d body 1 ∅ MessageRuntime_init
           call.2.1 call.2.2 H).
Defined.

Lemma register_second_instance_of_typed_method_witness :
  let d := {| _func := on_text (W:=list string); _predicate := always;
              _name := None; _message_type := MtStr "text" |} in
  let body := on_text_of (W:=list string) log in
  let call := _register_instance order d body 1 ∅ MessageRuntime_init in
  message_types_of order (_message_type d) = Ok (Some ["text"], Some "text") ∧
  (1%nat ∉ (∅ : gset nat)) ∧
  call = (Ok (), (call.2.1, call.2.2)) ∧
  (2%nat ∉ call.2.1) ∧
  _register_instance order d body 2 call.2.1 call.2.2 =
    (Raise (duplicate_type_error "text" "on_text" "on_text"), (call.2.1, call.2.2)).
Proof.
  intros d body call.
  assert (message_types_of order (_message_type d) = Ok (Some ["text"], Some "text"))
    as H1 by reflexivity.
  assert (1%nat ∉ (∅ : gset nat)) as H2 by apply not_elem_of_empty.
  assert (call = (Ok (), (call.2.1, call.2.2))) as H3 by reflexivity.
  assert (2%nat ∉ call.2.1) as H4 by (apply (bool_decide_unpack _); vm_compute; exact I).
  refine (conj H1 (conj H2 (conj H3 (conj H4 _)))).
  exact (register_second_instance_of_typed_method order d body 1 2 ∅ MessageRuntime_init
           call.2.1 call.2.2 "text" [] (Some "text") H1 H2 H3 H4).
Defined.

Lemma register_instances_of_untyped_method_witness :
  let d := {| _func := on_text (W:=list string); _predicate := always;
              _name := None; _message_type := MtNone |} in
  let body := on_text_of (W:=list string) log in
  let rt := MessageRuntime_init (W:=list string) in
  _message_type d = MtNone ∧ (1%nat ∉ (∅ : gset nat)) ∧ (2%nat ∉ (∅ : gset nat)) ∧
  (1%nat ≠ 2%nat) ∧
  ∃ ri rj rt1 rt2,
    _register_instance order d body 1 ∅ rt = (Ok (), ({[1%nat]} ∪ ∅, rt1)) ∧
    _register_instance order d body 2 ({[1%nat]} ∪ ∅) rt1
      = (Ok (), ({[2%nat]} ∪ ({[1%nat]} ∪ ∅), rt2)) ∧
    _routes rt2 = _routes rt ++ [ri; rj] ∧
    is_generic ri = true ∧ is_generic rj = true ∧
    predicate ri = _predicate d ∧ predicate rj = _predicate d ∧
    handler_call (handler ri) = body 1%nat ∧ handler_call (handler rj) = body 2%nat.
Proof.
  intros d body rt.
  assert (_message_type d = MtNone) as H1 by reflexivity.
  assert (1%nat ∉ (∅ : gset nat)) as H2 by apply not_elem_of_empty.
  assert (2%nat ∉ (∅ : gset nat)) as H3 by apply not_elem_of_empty.
  assert (1%nat ≠ 2%nat) as H4 by (intros Heq; discriminate Heq).
  refine (conj H1 (conj H2 (conj H3 (conj H4 _)))).
  exact (register_instances_of_untyped_method order d body 1 2 ∅ rt H1 H2 H3 H4).
Defined.

Lemma outgoing_handler_registration_witness :
  let s := InProcessCoreSink_init (W:=list string) (λ _ w, (Ok (), log "core" w)) in
  let h := {| callback_key := 7; callback := λ _ w, (Ok (), log "adapter" w) |} in
  _outgoing_handlers s !! callback_key h = None ∧
  InProcessCoreSink_remove_outgoing_handler h
    (InProcessCoreSink_set_outgoing_handler (Some h) s) = s.
Proof.
  intros s h.
  assert (_outgoing_handlers s !! callback_key h = None) as H by reflexivity.
  split; [exact H|].
  exact (proj2 (proj2 (proj2 (outgoing_handler_registration s h))) H).
Defined.

Lemma push_outgoing_reaches_the_handler_witness :
  let handlers_order := λ m : gmap nat (OutgoingHandler (W:=list string)),
                          (map_to_list m).*2 in
  let handler : envelope → M unit := λ _ w, (Ok (), log "core" w) in
  let h := {| callback_key := 7; callback := λ _ w, (Ok (), log "adapter" w) |} in
  let s0 := InProcessCoreSink_init handler in
  let s1 := InProcessCoreSink_set_outgoing_handler (Some h) s0 in
  (∀ m, handlers_order m ≡ₚ (map_to_list m).*2) ∧
  InProcessCoreSink_push_outgoing handlers_order s0 env_text [] = (Ok (), []) ∧
  InProcessCoreSink_push_outgoing handlers_order s1 env_text [] = callback h env_text [] ∧
  InProcessCoreSink_push_outgoing handlers_order
    (InProcessCoreSink_remove_outgoing_handler h s1) env_text [] = (Ok (), []) ∧
  InProcessCoreSink_push_outgoing handlers_order (InProcessCoreSink_close s1) env_text []
    = (Ok (), []).
Proof.
  intros handlers_order handler h s0 s1.
  assert (∀ m, handlers_order m ≡ₚ (map_to_list m).*2) as Hp by (intros m; reflexivity).
  split; [exact Hp|].
  exact (push_outgoing_reaches_the_handler handlers_order Hp handler h env_text []).
Defined.

Lemma on_platform_messages_converts_first_witness :
  let from_raw : pyval → M (W:=list string) envelope := λ raw w,
    match raw with
    | PDict E => (Ok E, log "converted" w)
    | _ => (Raise (TypeError "not a mapping"), w)
    end in
  let sink := InProcessCoreSink_sink
                (InProcessCoreSink_init (λ _ w, (Ok (), log "core" w))) in
  let raws := [PDict env_text; PNone; PDict env_text] in
  mapM from_raw raws [] = (Raise (TypeError "not a mapping"), ["converted"]) ∧
  on_platform_messages {| from_platform_message := from_raw; core_sink := sink |} raws []
    = (Raise (TypeError "not a mapping"), ["converted"]).
Proof.
  intros from_raw sink raws.
  assert (mapM from_raw raws [] = (Raise (TypeError "not a mapping"), ["converted"]))
    as H by reflexivity.
  split; [exact H|].
  exact (proj1 (proj2 (on_platform_messages_converts_first
                         (InProcessCoreSink_init (λ _ w, (Ok (), log "core" w))) from_raw))
           sink raws [] _ _ H).
Defined.

Lemma ws_listen_loop_survives_bad_frames_witness :
  let loads := λ raw : string,
    if bool_decide (raw = "good") then Ok (PDict env_text)
    else Raise (ValueError "unexpected character") in
  let a := {| from_platform_message := λ raw w,
                match raw with
                | PDict E => (Ok E, log "converted" w)
                | _ => (Raise (TypeError "not a mapping"), w)
                end;
              core_sink := InProcessCoreSink_sink
                (InProcessCoreSink_init (recording_core_handler log ∘ PDict)) |} in
  let frames := ["bad"; "good"] in
  let ending : outcome unit := Raise (UserException "connection closed") in
  let step := λ raw,
    bind (lift (_default_ws_parser loads raw)) (λ payload, on_platform_message a payload) in
  (∀ raw w0 e, raw ∈ frames → fst (step raw w0) = Raise e → is_Exception e = true) ∧
  _ws_listen_loop loads a false None frames ending [] =
    (ending, run_each (step <$> frames) []).
Proof.
  intros loads a frames ending step.
  assert (∀ raw w0 e, raw ∈ frames → fst (step raw w0) = Raise e → is_Exception e = true)
    as H.
  { intros raw w0 e [->|[->|Hin]%elem_of_cons]%elem_of_cons.
    - intros [= <-]. reflexivity.
    - intros Heq. discriminate Heq.
    - by apply elem_of_nil in Hin. }
  split; [exact H|].
  exact (proj1 (proj2 (ws_listen_loop_survives_bad_frames loads a None frames ending []))
           H).
Defined.

(** That run: the bad frame is passed over, the good one reaches the
    core, and the loop fails as the socket does. *)
Lemma ws_listen_loop_run :
  let loads := λ raw : string,
    if bool_decide (raw = "good") then Ok (PDict env_text)
    else Raise (ValueError "unexpected character") in
  let a := {| from_platform_message := λ raw w,
                match raw with
                | PDict E => (Ok E, log "converted" w)
                | _ => (Raise (TypeError "not a mapping"), w)
                end;
              core_sink := InProcessCoreSink_sink
                (InProcessCoreSink_init (recording_core_handler log ∘ PDict)) |} in
  _ws_listen_loop loads a false None ["bad"; "good"]
    (Raise (UserException "connection closed")) []
  = (Raise (UserException "connection closed"), ["converted"; "core"]) ∧
  _ws_listen_loop loads a false None ["bad"; "good"] (Ok ()) []
  = (Ok (), ["converted"; "core"]).
Proof. split; reflexivity. Qed.

Lemma default_parser_and_encoder_witness :
  let frame : envelope := {[ "type" := PStr "message"; "payload" := PDict env_text ]} in
  let orjson_loads := λ raw : string,
    if bool_decide (raw = "frame") then Ok (PDict frame)
    else if bool_decide (raw = "list") then Ok (PList [PDict frame])
    else Raise (ValueError "unexpected character") in
  (orjson_loads "frame" = Ok (PDict frame) ∧
   frame !! "type" = Some (PStr "message") ∧
   frame !! "payload" = Some (PDict env_text) ∧
   _default_ws_parser orjson_loads "frame" = Ok (PDict env_text)) ∧
  (orjson_loads "list" = Ok (PList [PDict frame]) ∧
   (∀ d, PList [PDict frame] = PDict d →
         d !! "type" ≠ Some (PStr "message") ∨ d !! "payload" = None) ∧
   _default_ws_parser orjson_loads "list" = Ok (PList [PDict frame])).
Proof.
  intros frame orjson_loads.
  assert (orjson_loads "frame" = Ok (PDict frame)) as H1 by reflexivity.
  assert (frame !! "type" = Some (PStr "message")) as H2 by reflexivity.
  assert (frame !! "payload" = Some (PDict env_text)) as H3 by reflexivity.
  assert (orjson_loads "list" = Ok (PList [PDict frame])) as H4 by reflexivity.
  assert (∀ d, PList [PDict frame] = PDict d →
               d !! "type" ≠ Some (PStr "message") ∨ d !! "payload" = None) as H5
    by (intros d Heq; discriminate Heq).
  split.
  - refine (conj H1 (conj H2 (conj H3 _))).
    exact (proj1 (proj2 (default_parser_and_encoder orjson_loads (λ _, Ok "frame")))
             "frame" frame (PDict env_text) H1 H2 H3).
  - refine (conj H4 (conj H5 _)).
    exact (proj1 (proj2 (proj2 (default_parser_and_encoder orjson_loads
                                  (λ _, Ok "frame"))))
             "list" (PList [PDict frame]) H4 H5).
Defined.

Lemma process_sink_delivers_to_core_witness :
  let h := failing_core_handler (W:=list string) log in
  let envs : list envelope := [env_text; ∅] in
  (∀ v w0 e, fst (h v w0) = Raise e → is_Exception e = true) ∧
  _consume_incoming false h (ProcessCoreSink_send_many envs []) [] =
  (Ok Waiting, run_each ((λ E, h (PDict E)) <$> envs) []).
Proof.
  intros h envs.
  assert (∀ v w0 e, fst (h v w0) = Raise e → is_Exception e = true) as H.
  { intros v w0 e Heq. injection Heq as <-. reflexivity. }
  split; [exact H|].
  exact (process_sink_delivers_to_core h envs [] H).
Defined.

Lemma process_sink_delivers_to_adapter_witness :
  let h := failing_core_handler (W:=list string) log in
  let envs : list envelope := [env_text; ∅] in
  let queue := foldl (λ q E, ProcessCoreSinkServer_push_outgoing E q) [] envs in
  (∀ v w0 e, fst (h v w0) = Raise e → is_Exception e = true) ∧
  _listen_from_core false (Some h) queue [] =
    (Ok Waiting, run_each ((λ E, h (PDict E)) <$> envs) []) ∧
  _listen_from_core false None queue ([] : list string) = (Ok Waiting, []).
Proof.
  intros h envs queue.
  assert (∀ v w0 e, fst (h v w0) = Raise e → is_Exception e = true) as H.
  { intros v w0 e Heq. injection Heq as <-. reflexivity. }
  split; [exact H|].
  exact (process_sink_delivers_to_adapter h envs [] H).
Defined.

Lemma consumers_compose_and_stop_witness :
  let h := recording_core_handler (W:=list string) log in
  let a := [incoming_frame env_text] in
  let b := [incoming_frame ∅] in
  _consume_incoming false h a [] = (Ok Waiting, ["core"]) ∧
  _consume_incoming false h
    (a ++ PDict {[ "__core_sink_control__" := PStr "stop" ]} :: b) []
  = (Ok Stopped, ["core"]).
Proof.
  intros h a b.
  assert (_consume_incoming false h a [] = (Ok Waiting, ["core"])) as H by reflexivity.
  split; [exact H|].
  exact (proj1 (proj2 (consumers_compose_and_stop h None)) a b [] ["core"] H).
Defined.

Lemma reconnect_gives_up_after_bound_witness :
  (-1 < 0)%Z ∧
  _ws_connect_loop (Some (-1)%Z) (plain_failure :: [plain_failure]) false 0 =
  {| actions := [ActDial]; status := GaveUp; reconnect_attempts := 1 |}.
Proof.
  assert (-1 < 0)%Z as H by lia.
  split; [exact H|].
  exact (proj2 reconnect_gives_up_after_bound (-1)%Z [plain_failure] H).
Defined.

Lemma reconnect_count_restarts_after_connection_witness :
  (1 ≤ 3)%nat ∧ (2 ≤ 3)%nat ∧
  _ws_connect_loop (Some (Z.of_nat 3))
    (replicate 2 plain_failure ++ lost_connection :: [plain_failure]) false 0 =
  then_report (concat (replicate 2 [ActDial; ActSleep]) ++ [ActDial; ActSleep])
    (_ws_connect_loop (Some (Z.of_nat 3)) [plain_failure] false 1).
Proof.
  assert (1 ≤ 3)%nat as H1 by lia.
  assert (2 ≤ 3)%nat as H2 by lia.
  refine (conj H1 (conj H2 _)).
  exact (reconnect_count_restarts_after_connection 3 2 [plain_failure] H1 H2).
Defined.

Lemma server_close_stops_the_listener_witness :
  let h := failing_core_handler (W:=list string) log in
  let envs : list envelope := [env_text; ∅] in
  let later := [outgoing_frame env_text] in
  let items := [incoming_frame env_text] in
  let pushed := foldl (λ q E, ProcessCoreSinkServer_push_outgoing E q) [] envs in
  (∀ v w0 e, fst (h v w0) = Raise e → is_Exception e = true) ∧
  let '(closed, incoming_queue, outgoing_queue) :=
    ProcessCoreSinkServer_close false [] pushed in
  closed = true ∧
  ProcessCoreSinkServer_close closed incoming_queue outgoing_queue
    = (closed, incoming_queue, outgoing_queue) ∧
  _listen_from_core false (Some h) (outgoing_queue ++ later) [] =
    (Ok Stopped, run_each ((λ E, h (PDict E)) <$> envs) []) ∧
  _consume_incoming false h (incoming_queue ++ later) [] = (Ok Stopped, []) ∧
  _consume_incoming closed h items [] = (Ok Stopped, []) ∧
  _listen_from_core closed (Some h) items [] = (Ok Stopped, []).
Proof.
  intros h envs later items pushed.
  assert (∀ v w0 e, fst (h v w0) = Raise e → is_Exception e = true) as H.
  { intros v w0 e Heq. injection Heq as <-. reflexivity. }
  split; [exact H|].
  exact (server_close_stops_the_listener h envs later items [] H).
Defined.

(** The traces of some of these runs. *)
Lemma further_runs :
  (* a batch that fails on its second envelope *)
  snd (handle_batch repr by_turns (rt_text_or_fail (W:=list string) order log)
         [env_text; ∅; env_text] []) = ["handler1"; "fallback"] ∧
  (* three failed dials with a bound of two *)
  _ws_connect_loop (Some 2%Z) (replicate 5 plain_failure) false 0 =
    {| actions := [ActDial; ActSleep; ActDial; ActSleep; ActDial];
       status := GaveUp; reconnect_attempts := 3 |} ∧
  (* the envelopes sent across the queue reach the core handler *)
  _consume_incoming false (recording_core_handler log)
    (ProcessCoreSink_send_many [env_text; ∅] []) [] = (Ok Waiting, ["core"; "core"]).
Proof. split_and!; reflexivity. Qed.
